(** * SELECT_ORDER_TABLE: the ABAP Open SQL rule engine of [app/app.py]

    A shallow embedding of [analyze_and_suggest] and [analyze_code] and the
    properties of the natural-language specification that concern them.

    Text is modelled as [string] over 8-bit characters (code points 0..255,
    the Latin-1 range of Python's [str]); text with characters above 255
    lies outside the model.  The functions of Python's
    [str] and [re] that the program calls are modelled in the modules
    [Py] and [Re]: [Re] is a backtracking matcher that enumerates the
    matches of a pattern in the order in which Python's engine tries
    them, so that the first element is the match Python reports.  Every
    pattern of the program is compiled with [re.IGNORECASE]. *)

From Stdlib Require Import List String Ascii Bool Arith NArith ZArith Lia.
Import ListNotations.
Local Open Scope string_scope.
Local Open Scope list_scope.

Set Implicit Arguments.

(* ------------------------------------------------------------------ *)
(** ** Characters *)

Module Chr.

Definition code (c : ascii) : N := N_of_ascii c.

Definition between (lo hi : N) (c : ascii) : bool :=
  (N.leb lo (code c) && N.leb (code c) hi)%bool.

Definition is_upper (c : ascii) : bool := between 65 90 c.
Definition is_lower (c : ascii) : bool := between 97 122 c.
Definition is_digit (c : ascii) : bool := between 48 57 c.

(** [[a-zA-Z0-9_]] on code points below 256.  The patterns are compiled
    with [re.IGNORECASE], under which Python lets this class also accept
    four letters above 255 (U+0130, U+0131, U+017F and U+212A, the case
    variants of [i], [s] and [k]); such text lies outside the model. *)
Definition is_ident (c : ascii) : bool :=
  (is_lower c || is_upper c || is_digit c || N.eqb (code c) 95)%bool.

(** [str.isspace] and the pattern [\s] on code points below 256:
    TAB, LF, VT, FF, CR, FS, GS, RS, US, SPACE, NEL and NBSP. *)
Definition is_space (c : ascii) : bool :=
  (between 9 13 c || between 28 32 c
   || N.eqb (code c) 133 || N.eqb (code c) 160)%bool.

(** The pattern [\w] (used by [\b]) on code points below 256: the
    characters for which [str.isalnum] holds, and the underscore. *)
Definition is_word (c : ascii) : bool :=
  (is_ident c
   || N.eqb (code c) 170 || N.eqb (code c) 178 || N.eqb (code c) 179
   || N.eqb (code c) 181 || between 185 186 c || between 188 190 c
   || between 192 214 c || between 216 246 c || between 248 255 c)%bool.

(** [str.lower] on one character: the ASCII capitals and the Latin-1
    capitals (all of 0xC0..0xDE but the multiplication sign). *)
Definition lower (c : ascii) : ascii :=
  if (is_upper c || (between 192 222 c && negb (N.eqb (code c) 215)))%bool
  then ascii_of_N (code c + 32) else c.

(** [str.upper] on one character.  The program applies it only to text
    captured by [[a-zA-Z0-9_]+], where it acts on the ASCII letters (on
    code points below 256; above, [str.upper] maps U+0131 and U+017F to
    [I] and [S]). *)
Definition upper (c : ascii) : ascii :=
  if is_lower c then ascii_of_N (code c - 32) else c.

(** Equality of two characters under [re.IGNORECASE], on code points
    below 256: the two characters have the same lower case.  Above 255
    Python also lets U+017F match [s], U+0130 and U+0131 match [i], and
    U+212A match [k]; the properties that depend on which characters
    match [s], [i] or [k] are therefore stated for ASCII text
    ([Props.ascii_text]). *)
Definition ieq (a b : ascii) : bool := Ascii.eqb (lower a) (lower b).

Definition not_space (c : ascii) : bool := negb (is_space c).

Definition any (_ : ascii) : bool := true.

(** [.] without [re.DOTALL]: every character but the line feed. *)
Definition not_lf (c : ascii) : bool := negb (N.eqb (code c) 10).

Definition eq (a : ascii) (c : ascii) : bool := Ascii.eqb a c.

End Chr.

(* ------------------------------------------------------------------ *)
(** ** The methods of Python's [str] that the program calls *)

Module Py.

Definition chars (s : string) : list ascii := list_ascii_of_string s.
Definition text (l : list ascii) : string := string_of_list_ascii l.

Fixpoint lstrip_l (l : list ascii) : list ascii :=
  match l with
  | c :: l' => if Chr.is_space c then lstrip_l l' else l
  | [] => []
  end.

Definition rstrip_l (l : list ascii) : list ascii := rev (lstrip_l (rev l)).

(** [s.strip()] *)
Definition strip (s : string) : string := text (rstrip_l (lstrip_l (chars s))).

Fixpoint drop_while (p : ascii -> bool) (l : list ascii) : list ascii :=
  match l with
  | c :: l' => if p c then drop_while p l' else l
  | [] => []
  end.

(** [s.rstrip('.')] *)
Definition rstrip_dot (s : string) : string :=
  text (rev (drop_while (Chr.eq ".") (rev (chars s)))).

(** [s.lower()] and [s.upper()] *)
Definition lower (s : string) : string := text (map Chr.lower (chars s)).
Definition upper (s : string) : string := text (map Chr.upper (chars s)).

(** [s.startswith(p)] *)
Definition startswith (s p : string) : bool := String.prefix p s.

Fixpoint is_prefix (p l : list ascii) : bool :=
  match p, l with
  | [], _ => true
  | a :: p', b :: l' => (Ascii.eqb a b && is_prefix p' l')%bool
  | _ :: _, [] => false
  end.

Fixpoint is_infix (p l : list ascii) : bool :=
  (is_prefix p l || match l with _ :: l' => is_infix p l' | [] => false end)%bool.

(** [p in s] *)
Definition contains (s p : string) : bool := is_infix (chars p) (chars s).

(** [s[n:]] *)
Definition drop (n : nat) (s : string) : string := text (skipn n (chars s)).

(** [sep.join(l)] *)
Fixpoint join (sep : string) (l : list string) : string :=
  match l with
  | [] => ""
  | [x] => x
  | x :: l' => x ++ sep ++ join sep l'
  end.

(** [s.split(",")]: the pieces between the commas, at least one piece. *)
Fixpoint split_comma_l (cur : list ascii) (l : list ascii) : list (list ascii) :=
  match l with
  | [] => [rev cur]
  | c :: l' => if Chr.eq "," c then rev cur :: split_comma_l [] l'
               else split_comma_l (c :: cur) l'
  end.

Definition split_comma (s : string) : list string :=
  map text (split_comma_l [] (chars s)).

(** [s.replace(old, "")] for a non-empty [old]: the occurrences of
    [old] are deleted from left to right, without overlap. *)
Fixpoint remove_l (old : list ascii) (l : list ascii) (skip : nat) : list ascii :=
  match l with
  | [] => []
  | c :: l' =>
      match skip with
      | S k => remove_l old l' k
      | O => if is_prefix old l then remove_l old l' (List.length old - 1)
             else c :: remove_l old l' 0
      end
  end.

Definition remove (s old : string) : string := text (remove_l (chars old) (chars s) 0).

(** The truth value of a [str]: non-empty. *)
Definition truthy (s : string) : bool := negb (String.eqb s "").

End Py.

(* ------------------------------------------------------------------ *)
(** ** The part of Python's [re] that the program uses *)

Module Re.

(** The constructs that occur in the program's patterns.  A quantifier
    is only ever applied to a single character class ([\s+], [.*?],
    [[\s\S]+?], ...), so [Star] takes the class itself. *)
Inductive regex : Type :=
| Emp                                        (* the empty pattern *)
| Cls (p : ascii -> bool)                    (* one character of a class *)
| Star (greedy : bool) (p : ascii -> bool)   (* [p*] and [p*?] *)
| Cat (r1 r2 : regex)                        (* [r1 r2] *)
| Alt (r1 r2 : regex)                        (* [r1|r2] *)
| Grp (n : nat) (r : regex)                  (* capturing group number [n] *)
| Bnd                                        (* [\b] *)
| Eos.                                       (* [$] *)

(** [p+] and [p+?] *)
Definition Plus (greedy : bool) (p : ascii -> bool) : regex :=
  Cat (Cls p) (Star greedy p).

(** [r?] (greedy) *)
Definition Opt (r : regex) : regex := Alt r Emp.

Definition greedy := true.
Definition lazy := false.

Fixpoint seq (rs : list regex) : regex :=
  match rs with
  | [] => Emp
  | [r] => r
  | r :: rs' => Cat r (seq rs')
  end.

(** A literal word under [re.IGNORECASE]. *)
Definition ilit (w : string) : regex :=
  seq (map (fun c => Cls (Chr.ieq c)) (Py.chars w)).

(** The text captured by each group. *)
Definition caps := list (nat * list ascii).

Fixpoint group (n : nat) (g : caps) : list ascii :=
  match g with
  | [] => []
  | (k, v) :: g' => if Nat.eqb k n then v else group n g'
  end.

(** A point reached by the matcher: the character before it (for [\b]),
    the text still to read and the groups captured so far. *)
Definition point : Type := option ascii * list ascii * caps.

Definition word_at (o : option ascii) : bool :=
  match o with Some c => Chr.is_word c | None => false end.

(** Where [p*] can stop, the longest run first. *)
Fixpoint star_greedy (p : ascii -> bool) (prev : option ascii) (s : list ascii)
  : list (option ascii * list ascii) :=
  match s with
  | c :: s' => if p c then star_greedy p (Some c) s' ++ [(prev, s)] else [(prev, s)]
  | [] => [(prev, s)]
  end.

(** Where [p*?] can stop, the shortest run first. *)
Fixpoint star_lazy (p : ascii -> bool) (prev : option ascii) (s : list ascii)
  : list (option ascii * list ascii) :=
  (prev, s) :: match s with
               | c :: s' => if p c then star_lazy p (Some c) s' else []
               | [] => []
               end.

(** All the ways in which [r] matches at a point, in the order in which
    a backtracking engine tries them. *)
Fixpoint mt (r : regex) (prev : option ascii) (s : list ascii) (g : caps) : list point :=
  match r with
  | Emp => [(prev, s, g)]
  | Cls p => match s with
             | c :: s' => if p c then [(Some c, s', g)] else []
             | [] => []
             end
  | Star gr p =>
      map (fun x => (fst x, snd x, g))
          (if gr then star_greedy p prev s else star_lazy p prev s)
  | Cat r1 r2 =>
      flat_map (fun x : point => mt r2 (fst (fst x)) (snd (fst x)) (snd x)) (mt r1 prev s g)
  | Alt r1 r2 => mt r1 prev s g ++ mt r2 prev s g
  | Grp n r1 =>
      map (fun x : point =>
             (fst (fst x), snd (fst x),
              (n, firstn (List.length s - List.length (snd (fst x))) s) :: snd x))
          (mt r1 prev s g)
  | Bnd => if xorb (word_at prev) (word_at (hd_error s)) then [(prev, s, g)] else []
  | Eos => match s with
           | [] => [(prev, s, g)]
           | [c] => if N.eqb (Chr.code c) 10 then [(prev, s, g)] else []
           | _ => []
           end
  end.

(** The match reported at a point: the first one. *)
Definition first (r : regex) (prev : option ascii) (s : list ascii) : option point :=
  hd_error (mt r prev s []).

(** A match object: the matched text and the groups. *)
Record found : Type := Found { whole : list ascii; groups : caps }.

Definition found_at (s : list ascii) (x : point) : found :=
  Found (firstn (List.length s - List.length (snd (fst x))) s) (snd x).

(** [re.match]: at the start of the text only. *)
Definition match_l (r : regex) (s : list ascii) : option found :=
  option_map (found_at s) (first r None s).

(** [re.search]: the leftmost position with a match. *)
Fixpoint search_l (r : regex) (prev : option ascii) (s : list ascii) : option found :=
  match first r prev s with
  | Some x => Some (found_at s x)
  | None => match s with
            | c :: s' => search_l r (Some c) s'
            | [] => None
            end
  end.

(** The scan shared by [findall] and [sub]: the text from left to right,
    cut into the matches and the characters between them.  After a match
    the scan goes on where the match ended ([skip] counts the characters
    of the match still to pass).  None of the program's patterns matches
    the empty text; an empty match would be followed by one plain
    character. *)
Inductive item : Type :=
| Plain (c : ascii)
| Hit (m : found).

Fixpoint scan (r : regex) (prev : option ascii) (s : list ascii) (skip : nat) : list item :=
  match s with
  | [] => match skip, first r prev [] with
          | O, Some x => [Hit (found_at [] x)]
          | _, _ => []
          end
  | c :: s' =>
      match skip with
      | S k => scan r (Some c) s' k
      | O =>
          match first r prev s with
          | Some x =>
              Hit (found_at s x) ::
              match List.length s - List.length (snd (fst x)) with
              | O => Plain c :: scan r (Some c) s' 0
              | S k => scan r (Some c) s' k
              end
          | None => Plain c :: scan r (Some c) s' 0
          end
      end
  end.

Definition hits (l : list item) : list found :=
  flat_map (fun i => match i with Hit m => [m] | Plain _ => [] end) l.

Definition glue (repl : found -> list ascii) (l : list item) : list ascii :=
  flat_map (fun i => match i with Hit m => repl m | Plain c => [c] end) l.

(** The interface on [string]. *)

Definition grp (n : nat) (m : found) : string := Py.text (group n (groups m)).

(** [re.match(r, s)] *)
Definition rmatch (r : regex) (s : string) : option found := match_l r (Py.chars s).

(** [re.search(r, s)] *)
Definition search (r : regex) (s : string) : option found := search_l r None (Py.chars s).

(** [r.findall(s)]: the match objects, from which the caller takes the
    groups. *)
Definition findall (r : regex) (s : string) : list found :=
  hits (scan r None (Py.chars s) 0).

(** [re.sub(r, repl, s)] with a function [repl] of the match object. *)
Definition sub (r : regex) (repl : found -> string) (s : string) : string :=
  Py.text (glue (fun m => Py.chars (repl m)) (scan r None (Py.chars s) 0)).

(** *** The words of a pattern

    [lang r w]: the pattern [r] can consume the text [w].  The
    assertions [\b] and [$] consume nothing; whether they hold depends
    on the surroundings, which [lang] leaves out. *)
Fixpoint lang (r : regex) (w : list ascii) : Prop :=
  match r with
  | Emp | Bnd | Eos => w = []
  | Cls p => exists c, w = [c] /\ p c = true
  | Star _ p => Forall (fun c => p c = true) w
  | Cat r1 r2 => exists w1 w2, w = w1 ++ w2 /\ lang r1 w1 /\ lang r2 w2
  | Alt r1 r2 => lang r1 w \/ lang r2 w
  | Grp _ r1 => lang r1 w
  end.

(** The pattern has no assertion. *)
Fixpoint unanchored (r : regex) : bool :=
  match r with
  | Bnd | Eos => false
  | Cat r1 r2 | Alt r1 r2 => (unanchored r1 && unanchored r2)%bool
  | Grp _ r1 => unanchored r1
  | Emp | Cls _ | Star _ _ => true
  end.

(** The pattern consumes at least one character. *)
Fixpoint nonempty (r : regex) : bool :=
  match r with
  | Cls _ => true
  | Cat r1 r2 => (nonempty r1 || nonempty r2)%bool
  | Alt r1 r2 => (nonempty r1 && nonempty r2)%bool
  | Grp _ r1 => nonempty r1
  | Emp | Star _ _ | Bnd | Eos => false
  end.

(** Every character the pattern consumes is in the class [q]. *)
Fixpoint within (q : ascii -> bool) (r : regex) : Prop :=
  match r with
  | Cls p | Star _ p => forall c, p c = true -> q c = true
  | Cat r1 r2 | Alt r1 r2 => within q r1 /\ within q r2
  | Grp _ r1 => within q r1
  | Emp | Bnd | Eos => True
  end.

(** The pattern ends with a greedy run of the class [q]. *)
Fixpoint run_last (q : ascii -> bool) (r : regex) : Prop :=
  match r with
  | Star gr p => gr = true /\ forall c, p c = q c
  | Cat _ r2 => run_last q r2
  | Grp _ r1 => run_last q r1
  | Emp | Cls _ | Alt _ _ | Bnd | Eos => False
  end.

(** The words of the pattern start with a character of [q]. *)
Fixpoint starts (q : ascii -> bool) (r : regex) : Prop :=
  match r with
  | Cls p => forall c, p c = true -> q c = true
  | Cat r1 _ => starts q r1
  | Alt r1 r2 => starts q r1 /\ starts q r2
  | Grp _ r1 => starts q r1
  | Emp | Star _ _ | Bnd | Eos => False
  end.

(** The words of the pattern end with a character of [q]. *)
Fixpoint ends (q : ascii -> bool) (r : regex) : Prop :=
  match r with
  | Cls p => forall c, p c = true -> q c = true
  | Cat _ r2 => ends q r2
  | Alt r1 r2 => ends q r1 /\ ends q r2
  | Grp _ r1 => ends q r1
  | Emp | Star _ _ | Bnd | Eos => False
  end.

(** The text [s] does not go on with a character of [q]. *)
Definition stops (q : ascii -> bool) (s : list ascii) : Prop :=
  match s with
  | [] => True
  | c :: _ => q c = false
  end.

(** Some start of [s] is a word of [r]. *)
Definition hit (r : regex) (s : list ascii) : Prop :=
  exists w t, s = w ++ t /\ lang r w.

Definition rest_of (x : point) : list ascii := snd (fst x).

Definition holds (p : ascii -> bool) : ascii -> Prop := fun c => p c = true.

(** The text with the matches of [r] deleted: [re.sub(r, '', s)]. *)
Definition deleted (r : regex) (pv : option ascii) (s : list ascii) : list ascii :=
  glue (fun _ => []) (scan r pv s 0).

End Re.

(* ------------------------------------------------------------------ *)
(** ** The program: [app/app.py] *)

Module App.

Import Re.
Local Open Scope string_scope.

(** A Python [dict] with [str] keys, in insertion order. *)
Definition dict (V : Type) : Type := list (string * V).

Fixpoint get {V : Type} (d : dict V) (k : string) : option V :=
  match d with
  | [] => None
  | (k', v) :: d' => if String.eqb k' k then Some v else get d' k
  end.

(** [d[k] = v]: a key already present keeps its place. *)
Fixpoint set {V : Type} (d : dict V) (k : string) (v : V) : dict V :=
  match d with
  | [] => [(k, v)]
  | (k', v') :: d' => if String.eqb k' k then (k', v) :: d' else (k', v') :: set d' k v
  end.

Definition TABLE_MAP : dict string :=
  [ ("MARC", "NSDM_V_MARC");
    ("MARD", "NSDM_V_MARD");
    ("KONV", "PRCD_ELEMENTS");
    ("J_1BBRANCH", "P_BUSINESSPLACE");
    ("J_1IMOVEND", "LFA1");
    ("J_1IMOCUST", "KNA1") ].

Definition SUGGESTED_FIELDS : dict (list string) :=
  [ ("NSDM_V_MARC", ["MATNR"; "WERKS"]);
    ("NSDM_V_MARD", ["MATNR"; "WERKS"; "LGORT"]);
    ("PRCD_ELEMENTS", ["KNUMV"; "KPOSN"; "STUNR"; "ZAEHK"]);
    ("P_BUSINESSPLACE", ["BUKRS,BRANCH"]);
    ("LFA1", ["LIFNR"]);
    ("KNA1", ["KUNNR"]) ].

(** *** The patterns *)

Definition dot : ascii := ".".
Definition star : ascii := "*".
Definition tilde : ascii := "~".

(** [(select[\s\S]+?from\s+([a-zA-Z0-9_]+)[\s\S]*?\.)] *)
Definition select_full_pattern : regex :=
  Grp 1 (seq [ ilit "select"; Plus lazy Chr.any; ilit "from"; Plus greedy Chr.is_space;
               Grp 2 (Plus greedy Chr.is_ident); Star lazy Chr.any; Cls (Chr.eq dot) ]).

(** [\bjoin\s+([a-zA-Z0-9_]+)] *)
Definition join_pattern : regex :=
  seq [ Bnd; ilit "join"; Plus greedy Chr.is_space; Grp 1 (Plus greedy Chr.is_ident) ].

(** [\b{re.escape(t_old)}~]; the keys of [TABLE_MAP] hold letters, digits
    and underscores, which [re.escape] leaves as they are. *)
Definition qualifier_pattern (t_old : string) : regex :=
  seq [ Bnd; ilit t_old; Cls (Chr.eq tilde) ].

(** [(\bfrom|\bjoin)\s+{re.escape(t_old)}\b] *)
Definition from_join_pattern (t_old : string) : regex :=
  seq [ Grp 1 (Alt (Cat Bnd (ilit "from")) (Cat Bnd (ilit "join")));
        Plus greedy Chr.is_space; ilit t_old; Bnd ].

(** [select\s+(.*?)\s+from] *)
Definition sel_fields_pattern : regex :=
  seq [ ilit "select"; Plus greedy Chr.is_space; Grp 1 (Star lazy Chr.not_lf);
        Plus greedy Chr.is_space; ilit "from" ].

(** [select\s+\*\s+from] *)
Definition select_star_pattern : regex :=
  seq [ ilit "select"; Plus greedy Chr.is_space; Cls (Chr.eq star);
        Plus greedy Chr.is_space; ilit "from" ].

(** [\s+where\s+(.+?)\.?$] *)
Definition where_pattern : regex :=
  seq [ Plus greedy Chr.is_space; ilit "where"; Plus greedy Chr.is_space;
        Grp 1 (Plus lazy Chr.not_lf); Opt (Cls (Chr.eq dot)); Eos ].

(** [for\s+all\s+entries\s+in\s+] *)
Definition fae_pattern : regex :=
  seq [ ilit "for"; Plus greedy Chr.is_space; ilit "all"; Plus greedy Chr.is_space;
        ilit "entries"; Plus greedy Chr.is_space; ilit "in"; Plus greedy Chr.is_space ].

(** [[a-zA-Z0-9_,\s~]] *)
Definition is_order_char (c : ascii) : bool :=
  (Chr.is_ident c || Chr.eq "," c || Chr.is_space c || Chr.eq tilde c)%bool.

(** [order\s+by\s+([a-zA-Z0-9_,\s~]+)] *)
Definition order_by_pattern : regex :=
  seq [ ilit "order"; Plus greedy Chr.is_space; ilit "by"; Plus greedy Chr.is_space;
        Grp 1 (Plus greedy is_order_char) ].

(** *** The data *)

(** One entry of the list under the key ["issues"]. *)
Record Issue : Type := mkIssue {
  suggestion : string;
  snippet : string;
  adjusted_code : string
}.

(** The two variables that the rules of one statement update in turn. *)
Record work : Type := mkWork {
  issue_msgs : list string;
  adjusted : string
}.

Definition say (w : work) (msg : string) : work :=
  mkWork (issue_msgs w ++ [msg])%list (adjusted w).

Definition rewrite (w : work) (code : string) : work :=
  mkWork (issue_msgs w) code.

(** *** Table mapping (lines 61-80) *)

Definition tables_to_replace (stmt main_table_upper : string) : dict string :=
  let d0 := match get TABLE_MAP main_table_upper with
            | Some new_table => set [] main_table_upper new_table
            | None => []
            end in
  fold_left
    (fun d jm =>
       let join_table_upper := Py.upper (grp 1 jm) in
       match get TABLE_MAP join_table_upper with
       | Some new_j_tbl => set d join_table_upper new_j_tbl
       | None => d
       end)
    (findall join_pattern stmt) d0.

(** The two [re.sub] of lines 79-80.  The replacement texts hold no
    backslash, so [re.sub] inserts them as they are. *)
Definition remap_text (t_old t_new code : string) : string :=
  sub (from_join_pattern t_old) (fun m => grp 1 m ++ " " ++ t_new)
      (sub (qualifier_pattern t_old) (fun _ => t_new ++ "~") code).

Definition replace_table (w : work) (t : string * string) : work :=
  let t_old := fst t in
  let t_new := snd t in
  rewrite
    (say w ("Use replacement table `" ++ t_new ++ "` instead of `" ++ t_old ++ "`."))
    (remap_text t_old t_new (adjusted w)).

Definition remap_tables (d : dict string) (w : work) : work :=
  fold_left replace_table d w.

(** *** Field detection and [SELECT *] (lines 83-114) *)

(** The variable [fields] (lines 83-87). *)
Definition select_fields (stmt : string) : string :=
  match rmatch sel_fields_pattern stmt with
  | Some m => Py.strip (grp 1 m)
  | None => "*"
  end.

(** The test of [is_star_select] (line 93) and of [is_single_star]
    (line 125). *)
Definition is_wildcard (fields : string) : bool :=
  (String.eqb fields "*" || String.eqb (Py.lower fields) "distinct *")%bool.

(** [", ".join(SUGGESTED_FIELDS.get(adjusted_main_table, []))] *)
Definition suggested_fields (table : string) : string :=
  Py.join ", " (match get SUGGESTED_FIELDS table with Some l => l | None => [] end).

Definition placeholder : string := "<field_list>".

(** Line 113. *)
Definition field_name_list (fields : string) : list string :=
  filter Py.truthy (map Py.strip (Py.split_comma (Py.remove fields "distinct"))).

(** The branch [if is_star_select]. *)
Definition wildcard_rule (table : string) (w : work) : work * string :=
  let replacement_fields := suggested_fields table in
  let w1 :=
    if Py.truthy replacement_fields
    then say w ("Avoid `SELECT *`. Use only these fields: " ++ replacement_fields ++ ".")
    else say w "Avoid `SELECT *`. Use an explicit field list." in
  let replacement_fields :=
    if Py.truthy replacement_fields then replacement_fields else placeholder in
  (rewrite w1 (sub select_star_pattern
                   (fun _ => "SELECT " ++ replacement_fields ++ " FROM") (adjusted w1)),
   replacement_fields).

(** The result is the work and [explicit_fields]. *)
Definition field_rule (fields table : string) (w : work) : work * string :=
  if is_wildcard fields then wildcard_rule table w
  else (w, Py.join ", " (field_name_list fields)).

(** *** [SELECT SINGLE] (lines 117-144) *)

Definition is_single (fields : string) : bool :=
  Py.startswith (Py.lower (Py.strip fields)) "single".

Definition where_clause (stmt : string) : string :=
  match search where_pattern stmt with
  | Some m => "WHERE " ++ Py.strip (grp 1 m)
  | None => ""
  end.

(** The f-string of line 141. *)
Definition bounded_fetch (real_fields table where_clause order_by_clause : string) : string :=
  "SELECT " ++ real_fields ++ " FROM " ++ table ++ " " ++ where_clause
  ++ " UP TO 1 ROWS " ++ order_by_clause ++ ". ENDSELECT.".

Definition single_rule (stmt fields explicit_fields table : string) (w : work) : work :=
  if is_single fields then
    let w1 := say w "Do not use `SELECT SINGLE`. Prefer `SELECT ... UP TO 1 ROWS ORDER BY ... . ENDSELECT.` for clarity and compliance." in
    let real_fields := Py.strip (Py.drop (String.length "single ") (Py.strip fields)) in
    let real_fields := if Py.truthy real_fields then real_fields else explicit_fields in
    let is_single_star := is_wildcard real_fields in
    let replacement_fields := suggested_fields table in
    let w2 :=
      if (is_single_star && Py.truthy replacement_fields)%bool
      then say w1 ("Use only these fields instead of *: " ++ replacement_fields ++ ".")
      else w1 in
    let real_fields :=
      if is_single_star
      then (if Py.truthy replacement_fields then replacement_fields else placeholder)
      else real_fields in
    let order_by_clause :=
      if String.eqb real_fields placeholder then "" else "ORDER BY " ++ real_fields in
    rewrite w2 (bounded_fetch real_fields table (where_clause stmt) order_by_clause)
  else w.

(** Lines 143-144. *)
Definition single_order_rule (stmt fields : string) (w : work) : work :=
  if (is_single fields && Py.contains (Py.lower stmt) "order by")%bool
  then say w "Do NOT use `ORDER BY` with `SELECT SINGLE`. Use `UP TO 1 ROWS ... ORDER BY ...` instead."
  else w.

(** *** [FOR ALL ENTRIES] and [ORDER BY] (lines 147-175) *)

Definition truth {A : Type} (o : option A) : bool :=
  match o with Some _ => true | None => false end.

Definition fae_present (stmt : string) : bool := truth (search fae_pattern stmt).

Definition order_by_match (stmt : string) : option found := search order_by_pattern stmt.

(** [explicit_fields if not is_star_select else ", ".join(SUGGESTED_FIELDS.get(...))] *)
Definition resolved_fields (fields explicit_fields table : string) : string :=
  if negb (is_wildcard fields) then explicit_fields else suggested_fields table.

(** [field_list and field_list != "<field_list>"] *)
Definition usable (field_list : string) : bool :=
  (Py.truthy field_list && negb (String.eqb field_list placeholder))%bool.

Definition fae_order_message (order_fields : string) : string :=
  "When using FOR ALL ENTRIES, do not use `ORDER BY` in SQL. Instead, sort the resulting internal table in ABAP."
  ++ (if Py.truthy order_fields then " Use: SORT <itab> BY " ++ order_fields ++ "." else "").

(** Line 157. *)
Definition strip_order_by (code : string) : string :=
  sub order_by_pattern (fun _ => "") code.

(** Lines 174-175. *)
Definition append_order_by (order_by_fields code : string) : string :=
  Py.strip (Py.rstrip_dot code) ++ " ORDER BY " ++ order_by_fields ++ ".".

Definition ordering_rule (stmt fields explicit_fields table : string) (w : work) : work :=
  if fae_present stmt then
    match order_by_match stmt with
    | Some m =>
        let order_fields := Py.strip (grp 1 m) in
        rewrite (say w (fae_order_message order_fields)) (strip_order_by (adjusted w))
    | None =>
        if negb (is_single fields) then
          let sort_fields := resolved_fields fields explicit_fields table in
          if usable sort_fields
          then say w ("For deterministic results, sort the resulting internal table in ABAP. Use: SORT <itab> BY " ++ sort_fields ++ ".")
          else w
        else w
    end
  else
    if (negb (is_single fields) && negb (truth (order_by_match stmt)))%bool then
      let order_by_fields := resolved_fields fields explicit_fields table in
      if usable order_by_fields
      then rewrite
             (say w ("For deterministic results, add `ORDER BY " ++ order_by_fields ++ "` to the SELECT statement."))
             (append_order_by order_by_fields (adjusted w))
      else w
    else w.

(** *** One statement (the body of the loop, lines 54-183) *)

(** The variables of the loop body that the rules read. *)
Record shape : Type := mkShape {
  stmt : string;
  main_table_upper : string;
  replaced : dict string;          (* [tables_to_replace] *)
  fields : string;
  adjusted_main_table : string
}.

Definition shape_of (orig_stmt main_table : string) : shape :=
  let stmt := Py.strip orig_stmt in
  let main_table_upper := Py.upper main_table in
  let replaced := tables_to_replace stmt main_table_upper in
  mkShape stmt main_table_upper replaced (select_fields stmt)
          (match get replaced main_table_upper with
           | Some t => t
           | None => main_table_upper
           end).

(** The rules in the order of the source; the result is the final
    [issue_msgs] and [adjusted_code]. *)
Definition before_ordering (sh : shape) : work * string :=
  let w0 := mkWork [] (stmt sh) in
  let w1 := remap_tables (replaced sh) w0 in
  let w2 := field_rule (fields sh) (adjusted_main_table sh) w1 in
  let explicit_fields := snd w2 in
  let w3 := single_rule (stmt sh) (fields sh) explicit_fields (adjusted_main_table sh) (fst w2) in
  (single_order_rule (stmt sh) (fields sh) w3, explicit_fields).

Definition run_rules (sh : shape) : work :=
  let w4 := before_ordering sh in
  ordering_rule (stmt sh) (fields sh) (snd w4) (adjusted_main_table sh) (fst w4).

(** Lines 177-183. *)
Definition issue_of (snippet : string) (w : work) : list Issue :=
  match issue_msgs w with
  | [] => []
  | _ :: _ => [mkIssue (Py.join " " (issue_msgs w)) snippet (adjusted w)]
  end.

(** What one match of [select_full_pattern] appends to [suggestions]. *)
Definition analyze_statement (orig_stmt main_table : string) : list Issue :=
  let sh := shape_of orig_stmt main_table in
  issue_of (stmt sh) (run_rules sh).

(** *** [analyze_and_suggest] *)

Definition statements (code : string) : list (string * string) :=
  map (fun m => (grp 1 m, grp 2 m)) (findall select_full_pattern code).

Definition suggestions_of (code : string) : list Issue :=
  flat_map (fun m => analyze_statement (fst m) (snd m)) (statements code).

(** The returned [dict]: empty, or the list under the key ["issues"]. *)
Definition analyze_and_suggest (code : string) : dict (list Issue) :=
  let suggestions := suggestions_of code in
  let found_issue := match suggestions with [] => false | _ :: _ => true end in
  if negb found_issue then [] else [("issues", suggestions)].

(** *** [analyze_code] *)

Record Unit : Type := mkUnit {
  pgm_name : string;
  inc_name : string;
  type : string;
  name : option string;
  class_implementation : option string;
  start_line : option Z;
  end_line : option Z;
  code : option string
}.

(** [unit.dict()] with the key ['issues'] added. *)
Record UnitWithSuggestion : Type := mkResult {
  res_pgm_name : string;
  res_inc_name : string;
  res_type : string;
  res_name : option string;
  res_class_implementation : option string;
  res_start_line : option Z;
  res_end_line : option Z;
  res_code : option string;
  issues : list Issue
}.

(** [unit.code or ""] *)
Definition code_or_empty (u : Unit) : string :=
  match code u with
  | Some c => if Py.truthy c then c else ""
  | None => ""
  end.

Definition analyze_unit (u : Unit) : UnitWithSuggestion :=
  let res := analyze_and_suggest (code_or_empty u) in
  let issues := match get res "issues" with Some l => l | None => [] end in
  mkResult (pgm_name u) (inc_name u) (type u) (name u) (class_implementation u)
           (start_line u) (end_line u) (code u) issues.

Definition analyze_code (units : list Unit) : list UnitWithSuggestion :=
  map analyze_unit units.

(** *** The rewrites of the adjusted code on their own

    What each rule does to the text of the adjusted statement, apart
    from the messages. *)

Definition remap_all (d : dict string) (code : string) : string :=
  fold_left (fun c t => remap_text (fst t) (snd t) c) d code.

Definition replacement_of (table : string) : string :=
  if Py.truthy (suggested_fields table) then suggested_fields table else placeholder.

Definition wildcard_text (fields table code : string) : string :=
  if is_wildcard fields
  then sub select_star_pattern (fun _ => "SELECT " ++ replacement_of table ++ " FROM") code
  else code.





(** The issue list that [analyze_code] reads from the result. *)
Definition issues_of (code : string) : list Issue :=
  match get (analyze_and_suggest code) "issues" with
  | Some l => l
  | None => []
  end.

(** A statement on which no rule fires: no table of [TABLE_MAP], an
    explicit field list, not single-row, no [FOR ALL ENTRIES], and an
    [ORDER BY]. *)
Definition settled (sh : shape) : bool :=
  (match replaced sh with [] => true | _ :: _ => false end
   && negb (is_wildcard (fields sh))
   && negb (is_single (fields sh))
   && negb (fae_present (stmt sh))
   && truth (order_by_match (stmt sh)))%bool.

End App.

(* ------------------------------------------------------------------ *)
(** ** Notions used to state further properties of the program *)

Module Props.

Import Re App.
Local Open Scope string_scope.

(** The pattern has no capturing group. *)
Fixpoint groupless (r : regex) : bool :=
  match r with
  | Grp _ _ => false
  | Cat r1 r2 | Alt r1 r2 => (groupless r1 && groupless r2)%bool
  | Emp | Cls _ | Star _ _ | Bnd | Eos => true
  end.

(** [l1] is [l2] with some elements left out. *)
Fixpoint subseq (l1 l2 : list string) : Prop :=
  match l1, l2 with
  | [], _ => True
  | _ :: _, [] => False
  | x :: l1', y :: l2' => (x = y /\ subseq l1' l2') \/ subseq l1 l2'
  end.

(** The message of line 77 for one entry of [tables_to_replace]. *)
Definition replacement_message (t : string * string) : string :=
  "Use replacement table `" ++ snd t ++ "` instead of `" ++ fst t ++ "`.".

(** The rule turns [w] into [w']: it keeps the messages of [w] and adds
    messages, none of them empty. *)
Definition extends (w w' : work) : Prop :=
  exists tail, issue_msgs w' = (issue_msgs w ++ tail)%list
               /\ Forall (fun m => m <> "") tail.


(** *** Statements described by their text

    The notions below describe a text character by character, without
    the matcher of [Re]. *)

(** The text holds ASCII characters only ([str.isascii]). *)
Definition ascii_text (s : string) : bool :=
  forallb (fun c => N.ltb (Chr.code c) 128) (Py.chars s).

(** [l] is the word [w] (given in lower case) in some letter case. *)
Definition ci (w : string) (l : list ascii) : Prop := map Chr.lower l = Py.chars w.












End Props.

(* ------------------------------------------------------------------ *)
(** ** Facts about the matcher *)

Module ReFacts.

Import Re.

Lemma star_greedy_sound (p : ascii -> bool) :
  forall s pv x, In x (star_greedy p pv s) ->
  exists w, s = w ++ snd x /\ Forall (holds p) w.
Proof.
  induction s as [|c s IH]; simpl; intros pv x H.
  - destruct H as [<-|[]]. exists []. split; auto.
  - destruct (p c) eqn:E.
    + apply in_app_or in H. destruct H as [H|[<-|[]]].
      * destruct (IH _ _ H) as (w & Hs & Hw).
        exists (c :: w). split; [simpl; congruence | constructor; assumption].
      * exists []. split; auto.
    + destruct H as [<-|[]]. exists []. split; auto.
Qed.

Lemma star_lazy_sound (p : ascii -> bool) :
  forall s pv x, In x (star_lazy p pv s) ->
  exists w, s = w ++ snd x /\ Forall (holds p) w.
Proof.
  induction s as [|c s IH]; simpl; intros pv x H.
  - destruct H as [<-|[]]. exists []. split; auto.
  - destruct H as [<-|H]; [exists []; split; auto|].
    destruct (p c) eqn:E; [|destruct H].
    destruct (IH _ _ H) as (w & Hs & Hw).
    exists (c :: w). split; [simpl; congruence | constructor; assumption].
Qed.

(** Every match consumes a word of the pattern. *)
Lemma mt_sound (r : regex) :
  forall pv s g x, In x (mt r pv s g) ->
  exists w, s = w ++ rest_of x /\ lang r w.
Proof.
  unfold rest_of.
  induction r as [|p|gr p|r1 IH1 r2 IH2|r1 IH1 r2 IH2|n r1 IH1| |]; simpl; intros pv s g x H.
  - destruct H as [<-|[]]. exists []. auto.
  - destruct s as [|c s]; [destruct H|].
    destruct (p c) eqn:E; [|destruct H].
    destruct H as [<-|[]]. exists [c]. split; [reflexivity|]. exists c. auto.
  - apply in_map_iff in H. destruct H as (y & <- & H). simpl.
    destruct gr; [apply star_greedy_sound in H | apply star_lazy_sound in H]; exact H.
  - apply in_flat_map in H. destruct H as (y & H1 & H2).
    destruct (IH1 _ _ _ _ H1) as (w1 & Hs1 & L1).
    destruct (IH2 _ _ _ _ H2) as (w2 & Hs2 & L2).
    exists (w1 ++ w2). split.
    + rewrite <- app_assoc, <- Hs2. exact Hs1.
    + exists w1, w2. auto.
  - apply in_app_or in H. destruct H as [H|H].
    + destruct (IH1 _ _ _ _ H) as (w & Hs & L). exists w. auto.
    + destruct (IH2 _ _ _ _ H) as (w & Hs & L). exists w. auto.
  - apply in_map_iff in H. destruct H as (y & <- & H). simpl.
    exact (IH1 _ _ _ _ H).
  - destruct (xorb _ _); [|destruct H]. destruct H as [<-|[]]. exists []. auto.
  - destruct s as [|c [|d s]]; try (destruct H; fail).
    + destruct H as [<-|[]]. exists []. auto.
    + destruct (N.eqb _ _); [|destruct H]. destruct H as [<-|[]]. exists []. auto.
Qed.

Lemma star_greedy_self (p : ascii -> bool) :
  forall s pv, In (pv, s) (star_greedy p pv s).
Proof.
  destruct s as [|c s]; simpl; intros pv; [auto|].
  destruct (p c); [apply in_or_app|]; simpl; auto.
Qed.

Lemma star_greedy_complete (p : ascii -> bool) :
  forall w, Forall (holds p) w ->
  forall pv t, exists pv', In (pv', t) (star_greedy p pv (w ++ t)).
Proof.
  induction 1 as [|c w Hc Hw IH]; intros pv t.
  - exists pv. apply star_greedy_self.
  - simpl. rewrite Hc. destruct (IH (Some c) t) as (pv' & H).
    exists pv'. apply in_or_app. auto.
Qed.

Lemma star_lazy_complete (p : ascii -> bool) :
  forall w, Forall (holds p) w ->
  forall pv t, exists pv', In (pv', t) (star_lazy p pv (w ++ t)).
Proof.
  induction 1 as [|c w Hc Hw IH]; intros pv t.
  - exists pv. destruct t; simpl; auto.
  - simpl. rewrite Hc. destruct (IH (Some c) t) as (pv' & H).
    exists pv'. auto.
Qed.

(** A pattern without assertions matches each of its words, whatever
    follows. *)
Lemma mt_complete (r : regex) :
  unanchored r = true ->
  forall w, lang r w ->
  forall pv t g, exists x, In x (mt r pv (w ++ t) g) /\ rest_of x = t.
Proof.
  unfold rest_of.
  induction r as [|p|gr p|r1 IH1 r2 IH2|r1 IH1 r2 IH2|n r1 IH1| |]; simpl;
    intros U w L pv t g; try discriminate.
  - subst w. eexists. split; [left; reflexivity|reflexivity].
  - destruct L as (c & -> & Hc). simpl. rewrite Hc.
    eexists. split; [left; reflexivity|reflexivity].
  - assert (exists pv', In (pv', t)
              (if gr then star_greedy p pv (w ++ t) else star_lazy p pv (w ++ t)))
      as (pv' & H).
    { destruct gr; [apply star_greedy_complete | apply star_lazy_complete]; exact L. }
    exists (pv', t, g). split; [|reflexivity].
    apply in_map_iff. exists (pv', t). auto.
  - apply andb_prop in U. destruct U as (U1 & U2).
    destruct L as (w1 & w2 & -> & L1 & L2).
    destruct (IH1 U1 _ L1 pv (w2 ++ t) g) as (x1 & H1 & R1).
    destruct (IH2 U2 _ L2 (fst (fst x1)) t (snd x1)) as (x2 & H2 & R2).
    exists x2. split; [|exact R2].
    rewrite <- app_assoc. apply in_flat_map. exists x1. split; [exact H1|].
    rewrite R1. exact H2.
  - apply andb_prop in U. destruct U as (U1 & U2). destruct L as [L|L].
    + destruct (IH1 U1 _ L pv t g) as (x & H & R).
      exists x. split; [apply in_or_app; auto|exact R].
    + destruct (IH2 U2 _ L pv t g) as (x & H & R).
      exists x. split; [apply in_or_app; auto|exact R].
  - destruct (IH1 U _ L pv t g) as (x & H & R).
    eexists. split; [apply in_map_iff; exists x; split; [reflexivity|exact H]|].
    simpl. exact R.
Qed.

Lemma lang_nonempty (r : regex) :
  nonempty r = true -> forall w, lang r w -> w <> [].
Proof.
  induction r as [|p|gr p|r1 IH1 r2 IH2|r1 IH1 r2 IH2|n r1 IH1| |]; simpl;
    intros N w L; try discriminate.
  - destruct L as (c & -> & _). discriminate.
  - destruct L as (w1 & w2 & -> & L1 & L2).
    apply orb_prop in N. intro E. apply app_eq_nil in E. destruct E as (E1 & E2).
    destruct N as [N|N]; [exact (IH1 N _ L1 E1) | exact (IH2 N _ L2 E2)].
  - apply andb_prop in N. destruct N as (N1 & N2).
    destruct L as [L|L]; [exact (IH1 N1 _ L) | exact (IH2 N2 _ L)].
  - exact (IH1 N _ L).
Qed.

Lemma lang_within (q : ascii -> bool) (r : regex) :
  within q r -> forall w, lang r w -> Forall (holds q) w.
Proof.
  induction r as [|p|gr p|r1 IH1 r2 IH2|r1 IH1 r2 IH2|n r1 IH1| |]; simpl;
    intros W w L; try (subst w; constructor).
  - destruct L as (c & -> & Hc). constructor; [apply W; exact Hc|constructor].
  - eapply Forall_impl; [|exact L]. exact W.
  - destruct W as (W1 & W2). destruct L as (w1 & w2 & -> & L1 & L2).
    apply Forall_app. auto.
  - destruct W as (W1 & W2). destruct L as [L|L]; auto.
  - auto.
Qed.

Lemma hd_error_flat_map (A B : Type) (f : A -> list B) :
  forall l y, hd_error (flat_map f l) = Some y ->
  exists x, In x l /\ hd_error (f x) = Some y.
Proof.
  induction l as [|a l IH]; simpl; intros y H; [discriminate|].
  destruct (f a) as [|b fa] eqn:E.
  - destruct (IH _ H) as (x & Hx & Hy). exists x. auto.
  - exists a. rewrite E. auto.
Qed.

Lemma star_greedy_longest (p : ascii -> bool) :
  forall s pv x, hd_error (star_greedy p pv s) = Some x -> stops p (snd x).
Proof.
  induction s as [|c s IH]; simpl; intros pv x H.
  - injection H as <-. exact I.
  - destruct (p c) eqn:E.
    + destruct (star_greedy p (Some c) s) as [|y l] eqn:G.
      * pose proof (star_greedy_self p s (Some c)) as S. rewrite G in S. destruct S.
      * simpl in H. injection H as <-. apply (IH (Some c)). rewrite G. reflexivity.
    + injection H as <-. exact E.
Qed.

Lemma stops_ext (p q : ascii -> bool) (s : list ascii) :
  (forall c, p c = q c) -> stops p s -> stops q s.
Proof. intros E. destruct s; simpl; [auto|rewrite E; auto]. Qed.

(** After the match that a pattern ending in a greedy run reports, the
    text does not go on with a character of the run. *)
Lemma first_stops (q : ascii -> bool) (r : regex) :
  run_last q r ->
  forall pv s g x, hd_error (mt r pv s g) = Some x -> stops q (rest_of x).
Proof.
  unfold rest_of.
  induction r as [|p|gr p|r1 IH1 r2 IH2|r1 IH1 r2 IH2|n r1 IH1| |]; simpl;
    intros R pv s g x H; try contradiction.
  - destruct R as (-> & E).
    destruct (star_greedy p pv s) as [|y l] eqn:G; [discriminate|].
    simpl in H. injection H as <-. simpl.
    eapply stops_ext; [exact E|].
    apply (@star_greedy_longest p s pv y). rewrite G. reflexivity.
  - apply hd_error_flat_map in H. destruct H as (y & _ & H).
    exact (IH2 R _ _ _ _ H).
  - destruct (mt r1 pv s g) as [|y l] eqn:G; [discriminate|].
    simpl in H. injection H as <-. simpl.
    apply (IH1 R pv s g). rewrite G. reflexivity.
Qed.

Lemma lang_starts (q : ascii -> bool) (r : regex) :
  starts q r -> forall w, lang r w -> exists c w', w = c :: w' /\ q c = true.
Proof.
  induction r as [|p|gr p|r1 IH1 r2 IH2|r1 IH1 r2 IH2|n r1 IH1| |]; simpl;
    intros S w L; try contradiction.
  - destruct L as (c & -> & Hc). exists c, []. auto.
  - destruct L as (w1 & w2 & -> & L1 & _).
    destruct (IH1 S _ L1) as (c & w' & -> & Hc). exists c, (w' ++ w2). auto.
  - destruct S as (S1 & S2). destruct L as [L|L]; auto.
  - auto.
Qed.

Lemma lang_ends (q : ascii -> bool) (r : regex) :
  ends q r -> forall w, lang r w -> exists w' c, w = w' ++ [c] /\ q c = true.
Proof.
  induction r as [|p|gr p|r1 IH1 r2 IH2|r1 IH1 r2 IH2|n r1 IH1| |]; simpl;
    intros S w L; try contradiction.
  - destruct L as (c & -> & Hc). exists [], c. auto.
  - destruct L as (w1 & w2 & -> & _ & L2).
    destruct (IH2 S _ L2) as (w' & c & -> & Hc). exists (w1 ++ w'), c.
    rewrite app_assoc. auto.
  - destruct S as (S1 & S2). destruct L as [L|L]; auto.
  - auto.
Qed.

(** The match reported for [r1 r2]: some match of [r1], followed by the
    match reported for [r2] there. *)
Lemma first_cat (r1 r2 : regex) (pv : option ascii) (s : list ascii) (g : caps) (x : point) :
  hd_error (mt (Cat r1 r2) pv s g) = Some x ->
  exists y w,
    s = w ++ rest_of y /\ lang r1 w
    /\ hd_error (mt r2 (fst (fst y)) (rest_of y) (snd y)) = Some x.
Proof.
  cbn [mt]. intros H. apply hd_error_flat_map in H. destruct H as (y & Hy & H).
  destruct (mt_sound _ _ _ _ _ Hy) as (w & Hs & L).
  exists y, w. auto.
Qed.

(** The match reported for [a*?e] stops at the first character of [e]. *)
Lemma first_until (a e : ascii -> bool) :
  forall s pv g x,
  hd_error (mt (Cat (Star false a) (Cls e)) pv s g) = Some x ->
  exists u c, s = u ++ c :: rest_of x /\ e c = true /\ Forall (fun d => e d = false) u.
Proof.
  induction s as [|c s IH]; intros pv g x H; [discriminate|].
  cbn [mt star_lazy map flat_map fst snd] in H.
  destruct (e c) eqn:E.
  - simpl in H. injection H as <-. exists [], c. auto.
  - simpl in H. destruct (a c); [|discriminate].
    destruct (IH (Some c) g x H) as (u & d & -> & Hd & Hu).
    exists (c :: u), d. auto.
Qed.

(** Every match that the scan reports is the first match at some point
    of the text. *)
Lemma scan_hits (r : regex) :
  forall s k pv m, In (Hit m) (scan r pv s k) ->
  exists pv' s' x, first r pv' s' = Some x /\ m = found_at s' x.
Proof.
  induction s as [|c s IH]; intros k pv m H.
  - simpl in H. destruct k; [|destruct H].
    destruct (first r pv []) as [x|] eqn:F; [|destruct H].
    destruct H as [H|[]]. injection H as <-. exists pv, [], x. auto.
  - destruct k as [|k]; [|exact (IH _ _ _ H)].
    cbn [scan] in H. destruct (first r pv (c :: s)) as [x|] eqn:F.
    + destruct H as [H|H].
      * injection H as <-. exists pv, (c :: s), x. auto.
      * destruct (List.length (c :: s) - List.length (snd (fst x))) as [|k'];
          [destruct H as [H|H]; [discriminate|]|]; exact (IH _ _ _ H).
    + destruct H as [H|H]; [discriminate|exact (IH _ _ _ H)].
Qed.

End ReFacts.

(* ------------------------------------------------------------------ *)
(** ** Deleting the matches of a pattern that ends in a greedy run

    For a pattern without assertions whose characters all lie in one
    class [q] and which ends with a greedy run of [q], every match runs
    to the end of a stretch of [q]-characters.  Once the matches are
    deleted, the pattern matches nowhere in what is left. *)

Module Deletion.

Import Re ReFacts.

Section Pattern.

Variable r : regex.
Variable q : ascii -> bool.
Hypothesis r_unanchored : unanchored r = true.
Hypothesis r_nonempty : nonempty r = true.
Hypothesis r_within : within q r.
Hypothesis r_run_last : run_last q r.

Lemma first_hit (pv : option ascii) (s : list ascii) (x : point) :
  first r pv s = Some x ->
  exists w, s = w ++ rest_of x /\ lang r w /\ w <> [] /\ stops q (rest_of x).
Proof.
  unfold first. intros H.
  assert (In x (mt r pv s [])) as HI.
  { destruct (mt r pv s []) as [|y l]; [discriminate|].
    injection H as <-. left. reflexivity. }
  destruct (mt_sound _ _ _ _ _ HI) as (w & Hs & L).
  exists w. repeat split; auto.
  - exact (lang_nonempty _ r_nonempty L).
  - exact (first_stops _ _ r_run_last _ _ _ H).
Qed.

Lemma first_none (pv : option ascii) (s : list ascii) :
  first r pv s = None -> ~ hit r s.
Proof.
  unfold first. intros H (w & t & -> & L).
  destruct (mt_complete _ r_unanchored _ L pv t []) as (x & HI & _).
  destruct (mt r pv (w ++ t) []); [destruct HI|discriminate].
Qed.

Lemma no_hit_first (pv : option ascii) (s : list ascii) :
  ~ hit r s -> first r pv s = None.
Proof.
  intros N. destruct (first r pv s) as [x|] eqn:E; [|reflexivity].
  destruct (first_hit _ _ E) as (w & Hs & L & _).
  exfalso. apply N. exists w, (rest_of x). auto.
Qed.

Lemma hit_head (s : list ascii) :
  hit r s -> exists c w t, s = c :: w ++ t /\ lang r (c :: w) /\ Forall (holds q) (c :: w).
Proof.
  intros (w & t & -> & L).
  pose proof (lang_nonempty _ r_nonempty L) as N.
  pose proof (lang_within _ _ r_within _ L) as W.
  destruct w as [|c w]; [contradiction|].
  exists c, w, t. auto.
Qed.

Lemma no_hit_nil : ~ hit r [].
Proof.
  intros H. destruct (hit_head H) as (c & w & t & E & _). discriminate.
Qed.

(** A text that starts outside [q] starts no match. *)
Lemma no_hit_outside (c : ascii) (s : list ascii) :
  q c = false -> ~ hit r (c :: s).
Proof.
  intros Hc H. destruct (hit_head H) as (d & w & t & E & _ & W).
  injection E as <- _. inversion W as [|? ? Hd _]. unfold holds in Hd. congruence.
Qed.

Lemma scan_skip :
  forall s k pv, k <= List.length s ->
  exists pv', scan r pv s k = scan r pv' (skipn k s) 0.
Proof.
  induction s as [|c s IH]; intros k pv Hk.
  - assert (k = 0) as -> by (simpl in Hk; lia). exists pv. reflexivity.
  - destruct k as [|k]; [exists pv; reflexivity|].
    simpl in Hk. destruct (IH k (Some c)) as (pv' & E); [lia|].
    exists pv'. simpl. exact E.
Qed.

Lemma scan_here (pv : option ascii) (c : ascii) (s : list ascii) :
  scan r pv (c :: s) 0 =
  match first r pv (c :: s) with
  | Some x =>
      Hit (found_at (c :: s) x) ::
      match List.length (c :: s) - List.length (snd (fst x)) with
      | O => Plain c :: scan r (Some c) s 0
      | S k => scan r (Some c) s k
      end
  | None => Plain c :: scan r (Some c) s 0
  end.
Proof. reflexivity. Qed.

Lemma deleted_nil (pv : option ascii) : deleted r pv [] = [].
Proof.
  unfold deleted. simpl. rewrite (no_hit_first pv no_hit_nil). reflexivity.
Qed.

Lemma deleted_miss (pv : option ascii) (c : ascii) (s : list ascii) :
  first r pv (c :: s) = None -> deleted r pv (c :: s) = c :: deleted r (Some c) s.
Proof.
  unfold deleted. intros H. simpl. rewrite H. reflexivity.
Qed.

Lemma deleted_hit (pv : option ascii) (s : list ascii) (x : point) :
  first r pv s = Some x ->
  exists pv', deleted r pv s = deleted r pv' (rest_of x).
Proof.
  intros H. destruct (first_hit _ _ H) as (w & Hs & _ & N & _).
  destruct w as [|c w]; [contradiction|].
  destruct s as [|c' s]; [discriminate|].
  simpl in Hs. injection Hs as -> Hs.
  unfold deleted. rewrite scan_here, H. fold (rest_of x).
  assert (List.length (c :: s) - List.length (rest_of x) = S (List.length w)) as ->.
  { change (List.length (c :: s)) with (S (List.length s)).
    rewrite Hs, length_app. lia. }
  destruct (@scan_skip s (List.length w) (Some c)) as (pv' & E).
  { rewrite Hs, length_app. lia. }
  exists pv'. simpl. rewrite E. f_equal. f_equal.
  rewrite Hs. rewrite skipn_app, skipn_all, Nat.sub_diag. reflexivity.
Qed.

(** A start of the remaining text that lies in [q] is a start of the
    original text. *)
Lemma deleted_prefix :
  forall n s pv m t, List.length s <= n ->
  Forall (holds q) m -> deleted r pv s = m ++ t ->
  exists t', s = m ++ t'.
Proof.
  induction n as [|n IH]; intros s pv m t Hn Hm E.
  - destruct s; [|simpl in Hn; lia]. rewrite deleted_nil in E.
    symmetry in E. apply app_eq_nil in E. destruct E as (-> & _). exists []. reflexivity.
  - destruct m as [|c m]; [exists s; reflexivity|].
    inversion Hm as [|? ? Hc Hm']; subst.
    destruct (first r pv s) as [x|] eqn:F.
    + destruct (first_hit _ _ F) as (w & Hs & _ & N & St).
      destruct (deleted_hit _ _ F) as (pv' & D). rewrite D in E.
      destruct (rest_of x) as [|d rest] eqn:R.
      * rewrite deleted_nil in E. discriminate.
      * simpl in St.
        rewrite deleted_miss in E by (apply no_hit_first, no_hit_outside; exact St).
        injection E as -> _. unfold holds in Hc. congruence.
    + destruct s as [|c' s]; [rewrite deleted_nil in E; discriminate|].
      rewrite deleted_miss in E by exact F. injection E as -> E.
      destruct (IH s (Some c) m t) as (t' & ->); [simpl in Hn; lia|assumption|assumption|].
      exists t'. reflexivity.
Qed.

(** No end of the remaining text starts a match. *)
Lemma deleted_clean :
  forall n s pv a u, List.length s <= n ->
  deleted r pv s = a ++ u -> ~ hit r u.
Proof.
  induction n as [|n IH]; intros s pv a u Hn E.
  - destruct s; [|simpl in Hn; lia]. rewrite deleted_nil in E.
    symmetry in E. apply app_eq_nil in E. destruct E as (_ & ->). exact no_hit_nil.
  - destruct (first r pv s) as [x|] eqn:F.
    + destruct (first_hit _ _ F) as (w & Hs & _ & N & _).
      destruct (deleted_hit _ _ F) as (pv' & D). rewrite D in E.
      apply (IH (rest_of x) pv' a u); [|exact E].
      assert (List.length w <> 0) by (destruct w; [contradiction|discriminate]).
      rewrite Hs, length_app in Hn. lia.
    + destruct s as [|c s].
      { rewrite deleted_nil in E. symmetry in E. apply app_eq_nil in E.
        destruct E as (_ & ->). exact no_hit_nil. }
      rewrite deleted_miss in E by exact F.
      destruct a as [|c' a].
      * simpl in E. subst u. intros H.
        destruct (hit_head H) as (d & w & t & E & L & W).
        injection E as <- E. inversion W as [|? ? _ W']; subst.
        destruct (@deleted_prefix (List.length s) s (Some c) w t) as (t' & ->);
          [lia|assumption|assumption|].
        apply (first_none _ F). exists (c :: w), t'. auto.
      * injection E as <- E.
        apply (IH s (Some c) a u); [simpl in Hn; lia|exact E].
Qed.

Lemma search_none :
  forall t pv, (forall a u, t = a ++ u -> ~ hit r u) -> search_l r pv t = None.
Proof.
  induction t as [|c t IH]; intros pv H; simpl.
  - rewrite (no_hit_first pv (H [] [] eq_refl)). reflexivity.
  - rewrite (no_hit_first pv (H [] (c :: t) eq_refl)).
    apply IH. intros a u E. apply (H (c :: a) u). simpl. congruence.
Qed.

(** [re.search(r, re.sub(r, '', s))] is [None]. *)
Theorem search_deleted (s : list ascii) (pv pv' : option ascii) :
  search_l r pv' (deleted r pv s) = None.
Proof.
  apply search_none. intros a u E.
  exact (@deleted_clean (List.length s) s pv a u (le_n _) E).
Qed.

End Pattern.

End Deletion.

(* ------------------------------------------------------------------ *)
(** ** Facts about the [str] methods *)

Module PyFacts.

Import Py.
Local Open Scope string_scope.

Lemma chars_text (l : list ascii) : chars (text l) = l.
Proof. apply list_ascii_of_string_of_list_ascii. Qed.

Lemma text_chars (s : string) : text (chars s) = s.
Proof. apply string_of_list_ascii_of_string. Qed.

Lemma chars_app (a b : string) : chars (a ++ b) = (chars a ++ chars b)%list.
Proof.
  induction a as [|c a IH]; simpl; [reflexivity|].
  unfold chars in *. simpl. rewrite IH. reflexivity.
Qed.

Lemma is_prefix_app (p l : list ascii) : is_prefix p (p ++ l)%list = true.
Proof.
  induction p as [|c p IH]; simpl; [reflexivity|].
  rewrite Ascii.eqb_refl. exact IH.
Qed.

Lemma is_prefix_more (p a b : list ascii) :
  is_prefix p a = true -> is_prefix p (a ++ b)%list = true.
Proof.
  revert a. induction p as [|c p IH]; intros a H; [reflexivity|].
  destruct a as [|d a]; [discriminate|]. simpl in *.
  apply andb_prop in H. destruct H as (H1 & H2).
  rewrite H1. simpl. apply IH. exact H2.
Qed.

Lemma is_infix_nil (l : list ascii) : is_infix [] l = true.
Proof. destruct l; reflexivity. Qed.

Lemma is_infix_self (p : list ascii) : is_infix p p = true.
Proof.
  destruct p as [|c p]; [reflexivity|].
  simpl. rewrite Ascii.eqb_refl.
  rewrite <- (app_nil_r p) at 2. rewrite is_prefix_app. reflexivity.
Qed.

Lemma is_infix_right (p a b : list ascii) :
  is_infix p b = true -> is_infix p (a ++ b)%list = true.
Proof.
  intros H. induction a as [|c a IH]; [exact H|].
  simpl. rewrite IH. apply orb_true_r.
Qed.

Lemma is_infix_left (p a b : list ascii) :
  is_infix p a = true -> is_infix p (a ++ b)%list = true.
Proof.
  induction a as [|c a IH]; intros H.
  - destruct p; [apply is_infix_nil|discriminate].
  - cbn [is_infix] in H. apply orb_prop in H.
    change ((c :: a) ++ b)%list with (c :: (a ++ b))%list. cbn [is_infix].
    destruct H as [H|H].
    + change (c :: (a ++ b))%list with ((c :: a) ++ b)%list.
      rewrite (is_prefix_more _ _ b H). reflexivity.
    + rewrite (IH H). apply orb_true_r.
Qed.

Lemma contains_right (a b p : string) :
  contains b p = true -> contains (a ++ b) p = true.
Proof. unfold contains. rewrite chars_app. apply is_infix_right. Qed.

Lemma contains_left (a b p : string) :
  contains a p = true -> contains (a ++ b) p = true.
Proof. unfold contains. rewrite chars_app. apply is_infix_left. Qed.

Lemma contains_self (p : string) : contains p p = true.
Proof. apply is_infix_self. Qed.

Lemma contains_empty (s : string) : contains s "" = true.
Proof. apply is_infix_nil. Qed.


Lemma text_app (a b : list ascii) : text (a ++ b)%list = text a ++ text b.
Proof.
  induction a as [|c a IH]; [reflexivity|].
  unfold text in *. simpl. rewrite IH. reflexivity.
Qed.

Lemma drop_while_rev_keeps (p : ascii -> bool) (pre tail : list ascii) :
  tail <> [] -> Forall (fun d => p d = false) tail ->
  drop_while p (rev (pre ++ tail)) = rev (pre ++ tail).
Proof.
  intros N F. destruct (exists_last N) as (t' & z & ->).
  rewrite app_assoc, rev_app_distr. simpl.
  apply Forall_app in F. destruct F as (_ & F). inversion F as [|? ? Hz _].
  rewrite Hz. reflexivity.
Qed.


End PyFacts.

(* ------------------------------------------------------------------ *)
(** ** Facts about the rules *)

Module AppFacts.

Import Re ReFacts PyFacts App.
Local Open Scope string_scope.

(** A fact about one character, checked on all of them. *)
Ltac by_char :=
  let c := fresh "c" in
  intros c; destruct c as [[] [] [] [] [] [] [] []]; vm_compute;
  let H := fresh in intros H; first [reflexivity | exact H | discriminate H].

Lemma order_by_within : within is_order_char order_by_pattern.
Proof. cbv [within order_by_pattern seq ilit map Py.chars list_ascii_of_string Plus]. repeat split; by_char. Qed.

Lemma order_by_run_last : run_last is_order_char order_by_pattern.
Proof. simpl. split; reflexivity. Qed.

(** Once [re.sub] has deleted the matches of the [ORDER BY] pattern,
    the pattern finds nothing in the result. *)
Lemma strip_order_by_clean (code : string) :
  order_by_match (strip_order_by code) = None.
Proof.
  unfold order_by_match, strip_order_by, search, sub.
  rewrite chars_text.
  exact (@Deletion.search_deleted order_by_pattern is_order_char
           eq_refl eq_refl order_by_within order_by_run_last
           (Py.chars code) None None).
Qed.

(** *** The extracted statements *)

Lemma select_full_starts : starts Chr.not_space select_full_pattern.
Proof. cbv [starts select_full_pattern seq ilit map Py.chars list_ascii_of_string]. by_char. Qed.

Lemma select_full_ends : ends Chr.not_space select_full_pattern.
Proof. cbv [ends select_full_pattern seq ilit map Py.chars list_ascii_of_string]. by_char. Qed.

Lemma lstrip_l_keeps (c : ascii) (l : list ascii) :
  Chr.not_space c = true -> Py.lstrip_l (c :: l) = c :: l.
Proof.
  unfold Chr.not_space. intros H. simpl. destruct (Chr.is_space c); [discriminate|reflexivity].
Qed.

Lemma rstrip_l_keeps (c : ascii) (l : list ascii) :
  Chr.not_space c = true -> Py.rstrip_l (l ++ [c])%list = (l ++ [c])%list.
Proof.
  intros H. unfold Py.rstrip_l. rewrite rev_app_distr. simpl rev at 2.
  simpl List.app. rewrite lstrip_l_keeps by exact H. simpl. rewrite rev_involutive. reflexivity.
Qed.

Lemma strip_keeps (w : list ascii) :
  (exists c w', w = c :: w' /\ Chr.not_space c = true) ->
  (exists w' c, w = (w' ++ [c])%list /\ Chr.not_space c = true) ->
  Py.strip (Py.text w) = Py.text w.
Proof.
  intros (c & w1 & E1 & H1) (w2 & d & E2 & H2).
  unfold Py.strip. rewrite chars_text.
  rewrite E1, lstrip_l_keeps by exact H1.
  rewrite <- E1, E2, rstrip_l_keeps by exact H2. reflexivity.
Qed.

(** Group 1 of [select_full_pattern] is the matched text; it starts
    with the [s] of [select] and ends with the period. *)
Lemma statement_text (pv : option ascii) (s : list ascii) (x : point) :
  first select_full_pattern pv s = Some x ->
  exists w, s = (w ++ rest_of x)%list /\ group 1 (snd x) = w /\ lang select_full_pattern w.
Proof.
  unfold first. intros H.
  assert (In x (mt select_full_pattern pv s [])) as HI.
  { destruct (mt select_full_pattern pv s []); [discriminate|].
    injection H as <-. left. reflexivity. }
  destruct (mt_sound _ _ _ _ _ HI) as (w & Hs & L).
  exists w. split; [exact Hs|]. split; [|exact L].
  unfold select_full_pattern in HI. cbn [mt] in HI.
  apply in_map_iff in HI. destruct HI as (y & <- & _).
  unfold rest_of in Hs. simpl in Hs. simpl.
  rewrite Hs at 2. rewrite Hs at 1. rewrite length_app.
  replace (List.length w + List.length (snd (fst y)) - List.length (snd (fst y)))
    with (List.length w + 0) by lia.
  rewrite firstn_app_2. simpl. apply app_nil_r.
Qed.

Lemma statements_stripped (code orig_stmt main_table : string) :
  In (orig_stmt, main_table) (statements code) -> Py.strip orig_stmt = orig_stmt.
Proof.
  unfold statements, findall, hits. intros H.
  apply in_map_iff in H. destruct H as (m & E & H).
  apply in_flat_map in H. destruct H as (i & Hi & Hm).
  destruct i as [c|m']; [destruct Hm|]. destruct Hm as [->|[]].
  apply scan_hits in Hi. destruct Hi as (pv & s & x & F & ->).
  injection E as <- _.
  destruct (statement_text _ _ F) as (w & _ & G & L).
  unfold grp, found_at. simpl. rewrite G.
  apply strip_keeps.
  - eapply lang_starts; [exact select_full_starts|exact L].
  - eapply lang_ends; [exact select_full_ends|exact L].
Qed.

Lemma first_grp (n : nat) (r : regex) (pv : option ascii) (s : list ascii) (g : caps) (x : point) :
  hd_error (mt (Grp n r) pv s g) = Some x ->
  exists y, hd_error (mt r pv s g) = Some y /\ rest_of x = rest_of y.
Proof.
  cbn [mt]. destruct (mt r pv s g) as [|y l]; [discriminate|].
  simpl. intros H. injection H as <-. exists y. auto.
Qed.

Lemma ident_not_dot : forall c, Chr.is_ident c = true -> Chr.eq dot c = false.
Proof. by_char. Qed.

(** The matched statement ends with its first period after the table
    name: the text before the final period does not end with one. *)
Lemma statement_period (pv : option ascii) (s : list ascii) (x : point) :
  first select_full_pattern pv s = Some x ->
  exists body,
    group 1 (snd x) = (body ++ [dot])%list
    /\ Py.drop_while (Chr.eq dot) (rev body) = rev body.
Proof.
  intros H. destruct (statement_text _ _ H) as (w & Hs & -> & _).
  unfold first in H.
  change select_full_pattern with
    (Grp 1 (Cat (ilit "select") (Cat (Plus lazy Chr.any) (Cat (ilit "from")
       (Cat (Plus greedy Chr.is_space) (Cat (Grp 2 (Plus greedy Chr.is_ident))
          (Cat (Star lazy Chr.any) (Cls (Chr.eq dot))))))))) in H.
  apply first_grp in H. destruct H as (y & H & R). rewrite R in Hs.
  apply first_cat in H. destruct H as (y1 & w1 & E1 & _ & H).
  apply first_cat in H. destruct H as (y2 & w2 & E2 & _ & H).
  apply first_cat in H. destruct H as (y3 & w3 & E3 & _ & H).
  apply first_cat in H. destruct H as (y4 & w4 & E4 & _ & H).
  apply first_cat in H. destruct H as (y5 & w5 & E5 & L5 & H).
  apply first_until in H. destruct H as (u & c & E6 & Hc & Hu).
  apply Ascii.eqb_eq in Hc. subst c.
  rewrite E6 in E5. rewrite E5 in E4. rewrite E4 in E3. rewrite E3 in E2.
  rewrite E2 in E1. clear E2 E3 E4 E5 E6.
  assert (w = ((w1 ++ w2 ++ w3 ++ w4) ++ (w5 ++ u)) ++ [dot])%list as ->.
  { apply (app_inv_tail (rest_of y)). rewrite <- Hs, E1.
    rewrite <- !app_assoc. reflexivity. }
  eexists. split; [reflexivity|].
  apply drop_while_rev_keeps.
  - cbn [lang Plus] in L5. destruct L5 as (a & b & -> & (c & -> & _) & _). discriminate.
  - apply Forall_app. split; [|exact Hu].
    assert (within Chr.is_ident (Grp 2 (Plus greedy Chr.is_ident))) as W
      by (simpl; auto).
    eapply Forall_impl; [|exact (lang_within _ _ W _ L5)].
    exact ident_not_dot.
Qed.

Lemma statements_period (code orig_stmt main_table : string) :
  In (orig_stmt, main_table) (statements code) ->
  exists body, orig_stmt = body ++ "." /\ Py.rstrip_dot orig_stmt = body.
Proof.
  unfold statements, findall, hits. intros H.
  apply in_map_iff in H. destruct H as (m & E & H).
  apply in_flat_map in H. destruct H as (i & Hi & Hm).
  destruct i as [c|m']; [destruct Hm|]. destruct Hm as [->|[]].
  apply scan_hits in Hi. destruct Hi as (pv & s & x & F & ->).
  injection E as <- _.
  destruct (statement_period _ _ F) as (body & G & D).
  exists (Py.text body). unfold grp, found_at. cbn [groups]. rewrite G.
  split; [apply text_app|].
  unfold Py.rstrip_dot. rewrite chars_text, rev_app_distr.
  change (rev [dot] ++ rev body)%list with (dot :: rev body).
  change (Py.drop_while (Chr.eq ".") (dot :: rev body))
    with (Py.drop_while (Chr.eq dot) (rev body)).
  rewrite D, rev_involutive. reflexivity.
Qed.

(** *** What each rule does to the adjusted code *)


Lemma field_rule_adjusted (fields table : string) (w : work) :
  adjusted (fst (field_rule fields table w)) = wildcard_text fields table (adjusted w).
Proof.
  unfold field_rule, wildcard_text, wildcard_rule, replacement_of.
  destruct (is_wildcard fields); [|reflexivity].
  destruct (Py.truthy (suggested_fields table)); reflexivity.
Qed.






Lemma issue_of_inv (snip : string) (w : work) (i : Issue) :
  In i (issue_of snip w) ->
  i = mkIssue (Py.join " " (issue_msgs w)) snip (adjusted w) /\ issue_msgs w <> [].
Proof.
  unfold issue_of. destruct (issue_msgs w); [intros []|].
  intros [<-|[]]. split; [reflexivity|discriminate].
Qed.

Lemma issues_of_suggestions (code : string) : issues_of code = suggestions_of code.
Proof.
  unfold issues_of, analyze_and_suggest.
  destruct (suggestions_of code); reflexivity.
Qed.

End AppFacts.

(* ------------------------------------------------------------------ *)
(** ** The rules on the statements of each kind *)

Module Rules.

Import Re ReFacts PyFacts App AppFacts.
Local Open Scope string_scope.

Lemma truthy_false (s : string) : Py.truthy s = false -> s = "".
Proof.
  unfold Py.truthy. intros H. apply negb_false_iff in H. apply String.eqb_eq. exact H.
Qed.

Lemma fae_order_message_names (order_fields : string) :
  Py.contains (fae_order_message order_fields) order_fields = true.
Proof.
  unfold fae_order_message. destruct (Py.truthy order_fields) eqn:T.
  - apply contains_right, contains_right, contains_left, contains_self.
  - rewrite (truthy_false _ T). apply contains_empty.
Qed.




(** The messages and the adjusted code of a statement with no table
    to replace, an explicit field list, no [SINGLE], no
    [FOR ALL ENTRIES] and no [ORDER BY]. *)
Lemma run_rules_plain (sh : shape) :
  replaced sh = [] ->
  is_wildcard (fields sh) = false ->
  is_single (fields sh) = false ->
  fae_present (stmt sh) = false ->
  order_by_match (stmt sh) = None ->
  usable (Py.join ", " (field_name_list (fields sh))) = true ->
  run_rules sh =
  mkWork ["For deterministic results, add `ORDER BY "
            ++ Py.join ", " (field_name_list (fields sh)) ++ "` to the SELECT statement."]
         (append_order_by (Py.join ", " (field_name_list (fields sh))) (stmt sh)).
Proof.
  intros R W S F O U.
  unfold run_rules, before_ordering, field_rule, single_rule, single_order_rule,
    ordering_rule, resolved_fields, remap_tables.
  rewrite R, W, S, F, O. cbn. rewrite U. reflexivity.
Qed.

(** No rule fires on a settled statement. *)
Lemma run_rules_settled (sh : shape) :
  settled sh = true -> issue_msgs (run_rules sh) = [].
Proof.
  unfold settled. intros H.
  repeat (apply andb_prop in H; let H' := fresh in destruct H as (H & H')).
  destruct (replaced sh) eqn:R; [|discriminate].
  destruct (is_wildcard (fields sh)) eqn:W; [discriminate|].
  destruct (is_single (fields sh)) eqn:S; [discriminate|].
  destruct (fae_present (stmt sh)) eqn:F; [discriminate|].
  destruct (order_by_match (stmt sh)) eqn:O; [|discriminate].
  unfold run_rules, before_ordering, field_rule, single_rule, single_order_rule,
    ordering_rule, remap_tables.
  rewrite R, W, S, F, O. reflexivity.
Qed.

Lemma suggestions_settled (l : list (string * string)) :
  forallb (fun m => settled (shape_of (fst m) (snd m))) l = true ->
  flat_map (fun m => analyze_statement (fst m) (snd m)) l = [].
Proof.
  induction l as [|m l IH]; simpl; intros H; [reflexivity|].
  apply andb_prop in H. destruct H as (H1 & H2).
  rewrite (IH H2). unfold analyze_statement, issue_of.
  rewrite (run_rules_settled _ H1). reflexivity.
Qed.


End Rules.

(* ------------------------------------------------------------------ *)
(** ** The properties of the specification *)

Import Re App PyFacts AppFacts Rules.
Local Open Scope string_scope.

(** C1, as the specification words it, does not hold: for the source
    text [SELECT * FROM MARC WHERE WERKS = '1000'.] the adjusted code is
    not the text that keeps the period before [ORDER BY]. *)
Lemma C1_period_before_order_by_refuted :
  ~ (exists i,
       analyze_and_suggest "SELECT * FROM MARC WHERE WERKS = '1000'." = [("issues", [i])]
       /\ adjusted_code i =
          "SELECT MATNR, WERKS FROM NSDM_V_MARC WHERE WERKS = '1000'. ORDER BY MATNR, WERKS.").
Proof.
  intros (i & E & A). vm_compute in E. injection E as <-.
  vm_compute in A. discriminate A.
Qed.

(** C1 (amended): for the source text
    [SELECT * FROM MARC WHERE WERKS = '1000'.] the engine produces
    exactly one issue; its suggestion mentions the replacement table
    NSDM_V_MARC and the fields [MATNR, WERKS]; its adjusted code is
    [SELECT MATNR, WERKS FROM NSDM_V_MARC WHERE WERKS = '1000' ORDER BY MATNR, WERKS.]:
    the period of the statement is moved behind the appended
    [ORDER BY]. *)
Theorem C1_marc_wildcard_scenario :
  exists i,
    analyze_and_suggest "SELECT * FROM MARC WHERE WERKS = '1000'." = [("issues", [i])]
    /\ Py.contains (suggestion i) "NSDM_V_MARC" = true
    /\ Py.contains (suggestion i) "MATNR, WERKS" = true
    /\ snippet i = "SELECT * FROM MARC WHERE WERKS = '1000'."
    /\ adjusted_code i =
       "SELECT MATNR, WERKS FROM NSDM_V_MARC WHERE WERKS = '1000' ORDER BY MATNR, WERKS.".
Proof.
  eexists. split; [vm_compute; reflexivity|].
  repeat split; vm_compute; reflexivity.
Qed.

(** C2 fails on the code for single-row statements.  The table
    mapping (line 79) rewrites every qualifier [MARC~] of the adjusted
    code, and a statement that is not single-row keeps that rewrite in
    the adjusted code of its issue.  The single-row rule (lines 137-142)
    does not go on from the adjusted code: it builds its statement from
    the original text, so that for
    [SELECT SINGLE MARC~MATNR FROM MARC WHERE MARC~WERKS = '1'.] the
    adjusted code of the issue selects from NSDM_V_MARC with the old
    qualifier [MARC~] in its field list, its WHERE clause and its
    ORDER BY. *)
Theorem C2_single_row_rebuilds_from_original :
  let text := "SELECT SINGLE MARC~MATNR FROM MARC WHERE MARC~WERKS = '1'." in
  let sh := shape_of text "MARC" in
  statements text = [(text, "MARC")]
  /\ remap_all (replaced sh) (stmt sh) =
     "SELECT SINGLE NSDM_V_MARC~MATNR FROM NSDM_V_MARC WHERE NSDM_V_MARC~WERKS = '1'."
  /\ search (qualifier_pattern "MARC") (remap_all (replaced sh) (stmt sh)) = None
  /\ (exists i,
        analyze_and_suggest text = [("issues", [i])]
        /\ snippet i = text
        /\ adjusted_code i =
           "SELECT MARC~MATNR FROM NSDM_V_MARC WHERE MARC~WERKS = '1' UP TO 1 ROWS ORDER BY MARC~MATNR. ENDSELECT."
        /\ search (qualifier_pattern "MARC") (adjusted_code i) <> None)
  /\ (exists i,
        analyze_and_suggest
          "SELECT MARC~MATNR FROM MARC WHERE MARC~WERKS = '1' ORDER BY MARC~MATNR."
        = [("issues", [i])]
        /\ adjusted_code i =
           "SELECT NSDM_V_MARC~MATNR FROM NSDM_V_MARC WHERE NSDM_V_MARC~WERKS = '1' ORDER BY NSDM_V_MARC~MATNR.").
Proof.
  cbv zeta. split; [vm_compute; reflexivity|].
  split; [vm_compute; reflexivity|].
  split; [vm_compute; reflexivity|].
  split.
  - eexists. split; [vm_compute; reflexivity|].
    split; [vm_compute; reflexivity|].
    split; [vm_compute; reflexivity|]. vm_compute. discriminate.
  - eexists. split; [vm_compute; reflexivity|]. vm_compute. reflexivity.
Qed.

(** C3 fails on the code for a single-row statement that has both
    [FOR ALL ENTRIES] and [ORDER BY].  The branches of lines 160 and 167
    test for SINGLE (comment of line 159); the branch of lines 151-157
    does not.  On
    [SELECT SINGLE a FROM t FOR ALL ENTRIES IN x WHERE k = x-k ORDER BY a.]
    the ordering policy adds its message and deletes
    [ORDER BY a UP TO 1 ROWS ORDER BY a] from the rebuilt statement;
    on the same statement without [FOR ALL ENTRIES] it does nothing. *)
Theorem C3_single_row_with_fae_and_order_by :
  let sh := shape_of "SELECT SINGLE a FROM t FOR ALL ENTRIES IN x WHERE k = x-k ORDER BY a." "t" in
  let before := fst (before_ordering sh) in
  let sh' := shape_of "SELECT SINGLE a FROM t WHERE k = 1 ORDER BY a." "t" in
  is_single (fields sh) = true
  /\ adjusted before =
     "SELECT a FROM T WHERE k = x-k ORDER BY a UP TO 1 ROWS ORDER BY a. ENDSELECT."
  /\ adjusted (run_rules sh) = "SELECT a FROM T WHERE k = x-k . ENDSELECT."
  /\ issue_msgs (run_rules sh) =
     (issue_msgs before ++
      ["When using FOR ALL ENTRIES, do not use `ORDER BY` in SQL. Instead, sort the resulting internal table in ABAP. Use: SORT <itab> BY a."])%list
  /\ run_rules sh <> before
  /\ is_single (fields sh') = true
  /\ run_rules sh' = fst (before_ordering sh').
Proof.
  cbv zeta. repeat split; try (vm_compute; reflexivity).
  vm_compute. discriminate.
Qed.

(** C4 fails on the code for the projection [DISTINCT *]: the statement
    [SELECT DISTINCT * FROM KNA1.] is classified as a wildcard
    projection and the message names the suggested field KUNNR, but the
    substitution pattern [select\s+\*\s+from] does not match
    [SELECT DISTINCT * FROM], and the wildcard stays in the adjusted
    code. *)
Theorem C4_distinct_wildcard_left_in_place :
  let sh := shape_of "SELECT DISTINCT * FROM KNA1." "KNA1" in
  is_wildcard (fields sh) = true
  /\ is_single (fields sh) = false
  /\ suggested_fields (adjusted_main_table sh) = "KUNNR"
  /\ analyze_and_suggest "SELECT DISTINCT * FROM KNA1." =
     [("issues",
       [mkIssue
          "Avoid `SELECT *`. Use only these fields: KUNNR. For deterministic results, add `ORDER BY KUNNR` to the SELECT statement."
          "SELECT DISTINCT * FROM KNA1."
          "SELECT DISTINCT * FROM KNA1 ORDER BY KUNNR."])].
Proof. cbv zeta. repeat split; vm_compute; reflexivity. Qed.


(** C6 fails on the code for a field list after [DISTINCT] in upper
    case.  Line 113 takes the key word out of the field list with
    [fields.replace("distinct", "")], which sees the lower-case spelling
    only, while the tests of lines 93, 120 and 125 lower the text first.
    The statement [SELECT DISTINCT a, b FROM t.] meets every condition
    of the claim; its field list is [a, b] (which is what the code
    appends for [select distinct a, b from t.]), and the adjusted code
    is the statement with [ORDER BY DISTINCT a, b] before its period. *)
Theorem C6_upper_case_distinct_in_order_by :
  let text := "SELECT DISTINCT a, b FROM t." in
  let sh := shape_of text "t" in
  statements text = [(text, "t")]
  /\ replaced sh = []
  /\ fields sh = "DISTINCT a, b"
  /\ is_wildcard (fields sh) = false
  /\ is_single (fields sh) = false
  /\ fae_present (stmt sh) = false
  /\ order_by_match (stmt sh) = None
  /\ field_name_list (fields sh) = ["DISTINCT a"; "b"]
  /\ field_name_list "distinct a, b" = ["a"; "b"]
  /\ analyze_and_suggest text =
     [("issues",
       [mkIssue
          "For deterministic results, add `ORDER BY DISTINCT a, b` to the SELECT statement."
          text
          "SELECT DISTINCT a, b FROM t ORDER BY DISTINCT a, b."])]
  /\ analyze_and_suggest "select distinct a, b from t." =
     [("issues",
       [mkIssue
          "For deterministic results, add `ORDER BY a, b` to the SELECT statement."
          "select distinct a, b from t."
          "select distinct a, b from t ORDER BY a, b."])].
Proof. cbv zeta. repeat split; vm_compute; reflexivity. Qed.

(** C7: for the source text [SELECT SINGLE * FROM KNA1.] the adjusted
    code is the bounded-fetch statement over KNA1 with the field list
    KUNNR, an empty WHERE segment, one row, ordered by KUNNR. *)
Theorem C7_single_wildcard_kna1 :
  exists i,
    analyze_and_suggest "SELECT SINGLE * FROM KNA1." = [("issues", [i])]
    /\ snippet i = "SELECT SINGLE * FROM KNA1."
    /\ adjusted_code i = bounded_fetch "KUNNR" "KNA1" "" "ORDER BY KUNNR"
    /\ adjusted_code i = "SELECT KUNNR FROM KNA1  UP TO 1 ROWS ORDER BY KUNNR. ENDSELECT.".
Proof.
  eexists. split; [vm_compute; reflexivity|].
  repeat split; vm_compute; reflexivity.
Qed.


(** C9: [analyze_code] returns one record for each unit, in the order
    of the input; every field of the unit is unchanged in its record,
    and the field [issues] added to it holds the issues of the unit's
    source text (none when the engine finds nothing). *)
Theorem C9_units_preserved (units : list Unit) :
  let results := analyze_code units in
  List.length results = List.length units
  /\ map res_pgm_name results = map pgm_name units
  /\ map res_inc_name results = map inc_name units
  /\ map res_type results = map type units
  /\ map res_name results = map name units
  /\ map res_class_implementation results = map class_implementation units
  /\ map res_start_line results = map start_line units
  /\ map res_end_line results = map end_line units
  /\ map res_code results = map code units
  /\ map issues results = map (fun u => suggestions_of (code_or_empty u)) units.
Proof.
  cbv zeta. unfold analyze_code. rewrite length_map, !map_map.
  repeat split.
  apply map_ext. intros u. unfold analyze_unit. cbn [issues].
  apply issues_of_suggestions.
Qed.


(* ------------------------------------------------------------------ *)
(** ** Further facts about the scan and the captured groups *)

Module ScanFacts.

Import Re ReFacts PyFacts Props.
Local Open Scope list_scope.

(** The matches and the characters between them, put back together,
    are the scanned text. *)
Lemma scan_parts (r : regex) :
  forall s k pv, k <= List.length s ->
  glue (fun m => whole m) (scan r pv s k) = skipn k s.
Proof.
  induction s as [|c s IH]; intros k pv Hk.
  - assert (k = 0) as -> by (simpl in Hk; lia).
    cbn [scan]. destruct (first r pv []); reflexivity.
  - destruct k as [|k].
    + cbn [scan skipn]. destruct (first r pv (c :: s)) as [x|].
      * cbn [glue flat_map found_at whole].
        destruct (List.length (c :: s) - List.length (snd (fst x))) as [|n] eqn:N.
        -- cbn [firstn app flat_map]. change (flat_map _ (scan r (Some c) s 0))
             with (glue (fun m => whole m) (scan r (Some c) s 0)).
           rewrite IH by lia. reflexivity.
        -- change (flat_map _ (scan r (Some c) s n))
             with (glue (fun m => whole m) (scan r (Some c) s n)).
           assert (n <= List.length s) by (cbn [List.length] in N; lia).
           rewrite IH by assumption.
           change (skipn n s) with (skipn (S n) (c :: s)).
           apply firstn_skipn.
      * cbn [glue flat_map app].
        change (flat_map _ (scan r (Some c) s 0))
          with (glue (fun m => whole m) (scan r (Some c) s 0)).
        rewrite IH by lia. reflexivity.
    + cbn [scan skipn]. apply IH. simpl in Hk. lia.
Qed.

(** Every reported match is a piece of the scanned text. *)
Lemma scan_hit_piece (r : regex) :
  forall s k pv m, In (Hit m) (scan r pv s k) ->
  exists a b, s = a ++ whole m ++ b.
Proof.
  induction s as [|c s IH]; intros k pv m H.
  - simpl in H. destruct k; [|destruct H].
    destruct (first r pv []) as [x|]; [|destruct H].
    destruct H as [H|[]]. injection H as <-. exists [], []. reflexivity.
  - assert (forall k' pv', In (Hit m) (scan r pv' s k') ->
                           exists a b, c :: s = a ++ whole m ++ b) as T.
    { intros k' pv' H'. destruct (IH _ _ _ H') as (a & b & ->).
      exists (c :: a), b. reflexivity. }
    destruct k as [|k]; [|exact (T _ _ H)].
    cbn [scan] in H. destruct (first r pv (c :: s)) as [x|].
    + destruct H as [H|H].
      * injection H as <-. exists [], (skipn (List.length (c :: s) - List.length (snd (fst x))) (c :: s)).
        cbn [found_at whole app]. symmetry. apply firstn_skipn.
      * destruct (List.length (c :: s) - List.length (snd (fst x)));
          [destruct H as [H|H]; [discriminate|]|]; exact (T _ _ H).
    + destruct H as [H|H]; [discriminate|exact (T _ _ H)].
Qed.

(** The matches together are no longer than the text. *)
Lemma hits_length (l : list item) :
  List.length (flat_map (fun m => whole m) (hits l))
  <= List.length (glue (fun m => whole m) l).
Proof.
  unfold hits, glue. induction l as [|i l IH]; [apply le_n|].
  destruct i as [c|m]; cbn [flat_map app].
  - simpl. lia.
  - rewrite !length_app. lia.
Qed.

(** A pattern without groups leaves the captured groups as they are. *)
Lemma mt_groupless (r : regex) :
  groupless r = true ->
  forall pv s g x, In x (mt r pv s g) -> snd x = g.
Proof.
  induction r as [|p|gr p|r1 IH1 r2 IH2|r1 IH1 r2 IH2|n r1 IH1| |]; simpl;
    intros G pv s g x H; try discriminate.
  - destruct H as [<-|[]]. reflexivity.
  - destruct s as [|c s]; [destruct H|].
    destruct (p c); [|destruct H]. destruct H as [<-|[]]. reflexivity.
  - apply in_map_iff in H. destruct H as (y & <- & _). reflexivity.
  - apply andb_prop in G. destruct G as (G1 & G2).
    apply in_flat_map in H. destruct H as (y & H1 & H2).
    rewrite (IH2 G2 _ _ _ _ H2). exact (IH1 G1 _ _ _ _ H1).
  - apply andb_prop in G. destruct G as (G1 & G2).
    apply in_app_or in H. destruct H as [H|H]; [exact (IH1 G1 _ _ _ _ H)|exact (IH2 G2 _ _ _ _ H)].
  - destruct (xorb _ _); [|destruct H]. destruct H as [<-|[]]. reflexivity.
  - destruct s as [|c [|d s]]; try (destruct H; fail).
    + destruct H as [<-|[]]. reflexivity.
    + destruct (N.eqb _ _); [|destruct H]. destruct H as [<-|[]]. reflexivity.
Qed.

(** A group around a pattern without groups records the text that the
    pattern consumed. *)
Lemma mt_group (n : nat) (r : regex) :
  groupless r = true ->
  forall pv s g x, In x (mt (Grp n r) pv s g) ->
  exists w, s = w ++ rest_of x /\ lang r w /\ snd x = (n, w) :: g.
Proof.
  intros G pv s g x H. cbn [mt] in H.
  apply in_map_iff in H. destruct H as (y & <- & H).
  destruct (mt_sound _ _ _ _ _ H) as (w & Hs & L).
  exists w. unfold rest_of in *. cbn [fst snd]. split; [exact Hs|]. split; [exact L|].
  rewrite (mt_groupless _ G _ _ _ _ H). f_equal. f_equal.
  rewrite Hs at 2. rewrite Hs at 1. rewrite length_app.
  replace (List.length w + List.length (snd (fst y)) - List.length (snd (fst y)))
    with (List.length w + 0) by lia.
  rewrite firstn_app_2. simpl. apply app_nil_r.
Qed.

(** The match reported for [r1 r2], with the match of [r1] it goes
    through. *)
Lemma first_cat_in (r1 r2 : regex) (pv : option ascii) (s : list ascii) (g : caps) (x : point) :
  hd_error (mt (Cat r1 r2) pv s g) = Some x ->
  exists y,
    In y (mt r1 pv s g)
    /\ hd_error (mt r2 (fst (fst y)) (rest_of y) (snd y)) = Some x.
Proof.
  cbn [mt]. intros H. apply hd_error_flat_map in H. destruct H as (y & Hy & H).
  exists y. auto.
Qed.

Lemma hd_error_in (A : Type) (l : list A) (x : A) : hd_error l = Some x -> In x l.
Proof. destruct l; [discriminate|]. intros H. injection H as <-. left. reflexivity. Qed.

End ScanFacts.

(* ------------------------------------------------------------------ *)
(** ** Further facts: key words in any letter case *)

Module WordFacts.

Import Re ReFacts PyFacts Props.
Local Open Scope list_scope.

Lemma lang_seq_cls (cs : list ascii) :
  cs <> [] ->
  forall l, lang (seq (map (fun c => Cls (Chr.ieq c)) cs)) l <->
            Forall2 (fun a c => Chr.ieq a c = true) cs l.
Proof.
  induction cs as [|a cs IH]; [intros N; destruct (N eq_refl)|]. intros _ l.
  destruct cs as [|b cs].
  - cbn [map seq lang]. split.
    + intros (c & -> & H). constructor; [exact H|constructor].
    + intros H. inversion H as [|? c ? l' Hc Hl]; subst. inversion Hl; subst.
      exists c. auto.
  - change (seq (map (fun c => Cls (Chr.ieq c)) (a :: b :: cs)))
      with (Cat (Cls (Chr.ieq a)) (seq (map (fun c => Cls (Chr.ieq c)) (b :: cs)))).
    cbn [lang]. split.
    + intros (w1 & w2 & -> & (c & -> & Hc) & L). constructor; [exact Hc|].
      apply IH; [discriminate|exact L].
    + intros H. inversion H as [|? c ? l' Hc Hl]; subst.
      exists [c], l'. split; [reflexivity|]. split; [exists c; auto|].
      apply IH; [discriminate|exact Hl].
Qed.

(** The words of the pattern for a key word are the spellings of the
    key word in any letter case. *)
Lemma lang_ci (w : string) (l : list ascii) :
  w <> ""%string -> Forall (fun a => Chr.lower a = a) (Py.chars w) ->
  (lang (ilit w) l <-> ci w l).
Proof.
  intros N F. unfold ilit, ci.
  assert (Py.chars w <> []) as N'.
  { intros E. apply N. rewrite <- (text_chars w), E. reflexivity. }
  rewrite (lang_seq_cls N'). clear N N'. revert l.
  induction F as [|a cs Ha _ IH]; intros l.
  - split.
    + intros H. inversion H. reflexivity.
    + destruct l; [constructor|discriminate].
  - split.
    + intros H. inversion H as [|? c ? l' Hc Hl]; subst. cbn [map].
      apply IH in Hl. rewrite Hl. f_equal.
      unfold Chr.ieq in Hc. apply Ascii.eqb_eq in Hc. congruence.
    + destruct l as [|c l']; [discriminate|]. cbn [map]. intros E.
      injection E as Ec El. constructor; [|apply IH; exact El].
      unfold Chr.ieq. apply Ascii.eqb_eq. congruence.
Qed.

Ltac key_word := split; [discriminate | repeat constructor].


(** A word in some letter case occurs, in lower case, in the lowered
    text around it. *)
Lemma ci_infix (w : string) (a l b : list ascii) :
  ci w l -> Py.is_infix (Py.chars w) (map Chr.lower (a ++ l ++ b)) = true.
Proof.
  unfold ci. intros E. rewrite !map_app, E.
  apply is_infix_right, is_infix_left, is_infix_self.
Qed.

End WordFacts.

(* ------------------------------------------------------------------ *)
(** ** Further facts about the extracted statements *)

Module StatementFacts.

Import Re ReFacts PyFacts App AppFacts Props ScanFacts WordFacts.
Local Open Scope list_scope.

Lemma first_grp_caps (n : nat) (r : regex) (pv : option ascii) (s : list ascii)
      (g : caps) (x : point) :
  hd_error (mt (Grp n r) pv s g) = Some x ->
  exists y w, hd_error (mt r pv s g) = Some y /\ snd x = (n, w) :: snd y.
Proof.
  cbn [mt]. destruct (mt r pv s g) as [|y l]; [discriminate|].
  simpl. intros H. injection H as <-. eexists y, _. split; reflexivity.
Qed.

(** Group 2 of [select_full_pattern] is a non-empty run of
    [[a-zA-Z0-9_]]. *)
Lemma statement_table (pv : option ascii) (s : list ascii) (x : point) :
  first select_full_pattern pv s = Some x ->
  group 2 (snd x) <> [] /\ Forall (holds Chr.is_ident) (group 2 (snd x)).
Proof.
  unfold first. intros H.
  change select_full_pattern with
    (Grp 1 (Cat (ilit "select") (Cat (Plus lazy Chr.any) (Cat (ilit "from")
       (Cat (Plus greedy Chr.is_space) (Cat (Grp 2 (Plus greedy Chr.is_ident))
          (Cat (Star lazy Chr.any) (Cls (Chr.eq dot))))))))) in H.
  apply first_grp_caps in H. destruct H as (y & w & H & C). rewrite C. clear C.
  apply first_cat_in in H. destruct H as (y1 & I1 & H).
  apply (mt_groupless _ (eq_refl : groupless (ilit "select") = true)) in I1.
  rewrite I1 in H. clear I1.
  apply first_cat_in in H. destruct H as (y2 & I2 & H).
  apply (mt_groupless _ (eq_refl : groupless (Plus lazy Chr.any) = true)) in I2.
  rewrite I2 in H. clear I2.
  apply first_cat_in in H. destruct H as (y3 & I3 & H).
  apply (mt_groupless _ (eq_refl : groupless (ilit "from") = true)) in I3.
  rewrite I3 in H. clear I3.
  apply first_cat_in in H. destruct H as (y4 & I4 & H).
  apply (mt_groupless _ (eq_refl : groupless (Plus greedy Chr.is_space) = true)) in I4.
  rewrite I4 in H. clear I4.
  apply first_cat_in in H. destruct H as (y5 & I5 & H).
  apply (mt_group 2 _ (eq_refl : groupless (Plus greedy Chr.is_ident) = true)) in I5.
  destruct I5 as (w5 & _ & L5 & C5). rewrite C5 in H.
  apply hd_error_in in H.
  apply (mt_groupless _ (eq_refl : groupless (Cat (Star lazy Chr.any) (Cls (Chr.eq dot))) = true)) in H.
  rewrite H. cbn [group Nat.eqb]. split.
  - exact (lang_nonempty _ (eq_refl : nonempty (Plus greedy Chr.is_ident) = true) L5).
  - apply (lang_within Chr.is_ident (Plus greedy Chr.is_ident)); [simpl; auto|exact L5].
Qed.

(** A match that the scan of [select_full_pattern] reports: its group 1
    is the matched text, a word of the pattern. *)
Lemma hit_statement (s : list ascii) (k : nat) (pv : option ascii) (m : found) :
  In (Hit m) (scan select_full_pattern pv s k) ->
  group 1 (groups m) = whole m
  /\ lang select_full_pattern (whole m)
  /\ group 2 (groups m) <> []
  /\ Forall (holds Chr.is_ident) (group 2 (groups m)).
Proof.
  intros H. apply scan_hits in H. destruct H as (pv' & s' & x & F & ->).
  destruct (statement_text _ _ F) as (w & Hs & G & L).
  destruct (statement_table _ _ F) as (T1 & T2).
  cbn [found_at groups whole]. fold (rest_of x).
  assert (firstn (List.length s' - List.length (rest_of x)) s' = w) as ->.
  { rewrite Hs at 2. rewrite Hs at 1. rewrite length_app.
    replace (List.length w + List.length (rest_of x) - List.length (rest_of x))
      with (List.length w + 0) by lia.
    rewrite firstn_app_2. simpl. apply app_nil_r. }
  auto.
Qed.

Lemma ieq_lower (a c : ascii) : Chr.ieq a c = true -> Chr.lower c = Chr.lower a.
Proof. unfold Chr.ieq. intros H. apply Ascii.eqb_eq in H. congruence. Qed.

(** A word of [select_full_pattern] starts, in lower case, with
    [select]. *)
Lemma statement_select (w : list ascii) :
  lang select_full_pattern w ->
  exists rest, map Chr.lower w = Py.chars "select" ++ rest.
Proof.
  change select_full_pattern with
    (Grp 1 (Cat (ilit "select") (Cat (Plus lazy Chr.any) (Cat (ilit "from")
       (Cat (Plus greedy Chr.is_space) (Cat (Grp 2 (Plus greedy Chr.is_ident))
          (Cat (Star lazy Chr.any) (Cls (Chr.eq dot))))))))).
  intros L. cbn [lang] in L. destruct L as (w1 & w2 & -> & L1 & _).
  cbv [ilit seq map Py.chars list_ascii_of_string] in L1. cbn [lang] in L1.
  destruct L1 as (? & ? & -> & (c1 & -> & H1) & L1).
  destruct L1 as (? & ? & -> & (c2 & -> & H2) & L1).
  destruct L1 as (? & ? & -> & (c3 & -> & H3) & L1).
  destruct L1 as (? & ? & -> & (c4 & -> & H4) & L1).
  destruct L1 as (? & ? & -> & (c5 & -> & H5) & (c6 & -> & H6)).
  exists (map Chr.lower w2).
  apply ieq_lower in H1, H2, H3, H4, H5, H6.
  rewrite map_app. cbn [map app]. rewrite H1, H2, H3, H4, H5, H6. reflexivity.
Qed.

(** A word of [select_full_pattern] holds, in lower case, [from]. *)
Lemma statement_from (a w b : list ascii) :
  lang select_full_pattern w ->
  Py.is_infix (Py.chars "from") (map Chr.lower (a ++ w ++ b)) = true.
Proof.
  change select_full_pattern with
    (Grp 1 (Cat (ilit "select") (Cat (Plus lazy Chr.any) (Cat (ilit "from")
       (Cat (Plus greedy Chr.is_space) (Cat (Grp 2 (Plus greedy Chr.is_ident))
          (Cat (Star lazy Chr.any) (Cls (Chr.eq dot))))))))).
  intros L. cbn [lang] in L.
  destruct L as (w1 & ? & -> & _ & w2 & ? & -> & _ & w3 & w4 & -> & L3 & _).
  apply (lang_ci (w := "from")) in L3; [|discriminate|repeat constructor].
  replace (a ++ (w1 ++ w2 ++ w3 ++ w4) ++ b)
    with ((a ++ w1 ++ w2) ++ w3 ++ (w4 ++ b)) by (rewrite <- !app_assoc; reflexivity).
  apply ci_infix. exact L3.
Qed.

End StatementFacts.

(* ------------------------------------------------------------------ *)
(** ** Further facts: statements and issues of a text *)

Module IssueFacts.

Import Re ReFacts PyFacts App AppFacts Props ScanFacts StatementFacts.
Local Open Scope string_scope.

Lemma startswith_app (p r : string) : Py.startswith (p ++ r) p = true.
Proof.
  unfold Py.startswith. induction p as [|a p IH]; [destruct r; reflexivity|].
  simpl. destruct (ascii_dec a a) as [_|N]; [exact IH|destruct (N eq_refl)].
Qed.

Lemma length_text (l : list ascii) : String.length (Py.text l) = List.length l.
Proof. induction l as [|c l IH]; [reflexivity|]. unfold Py.text in *. simpl. congruence. Qed.

Lemma statements_hit (code orig_stmt main_table : string) :
  In (orig_stmt, main_table) (statements code) ->
  exists m, In (Hit m) (scan select_full_pattern None (Py.chars code) 0)
            /\ orig_stmt = Py.text (whole m)
            /\ main_table = Py.text (group 2 (groups m))
            /\ lang select_full_pattern (whole m)
            /\ group 2 (groups m) <> []
            /\ Forall (holds Chr.is_ident) (group 2 (groups m)).
Proof.
  unfold statements, findall, hits. intros H.
  apply in_map_iff in H. destruct H as (m & E & H).
  apply in_flat_map in H. destruct H as (i & Hi & Hm).
  destruct i as [c|m']; [destruct Hm|]. destruct Hm as [->|[]].
  destruct (hit_statement _ _ _ _ Hi) as (G1 & L & T1 & T2).
  exists m. injection E as <- <-. unfold grp. rewrite G1. auto 7.
Qed.

(** An extracted statement is a piece of the text. *)
Lemma statements_piece (code orig_stmt main_table : string) :
  In (orig_stmt, main_table) (statements code) ->
  exists a b, code = a ++ orig_stmt ++ b.
Proof.
  intros H. destruct (statements_hit _ _ _ H) as (m & Hi & -> & _).
  destruct (scan_hit_piece _ _ _ _ _ Hi) as (a & b & E).
  exists (Py.text a), (Py.text b).
  rewrite <- !text_app, <- E. symmetry. apply text_chars.
Qed.

Lemma suggestions_statement (code : string) (i : Issue) :
  In i (suggestions_of code) ->
  exists main_table, In (snippet i, main_table) (statements code).
Proof.
  unfold suggestions_of. intros H.
  apply in_flat_map in H. destruct H as ((orig_stmt & main_table) & Hm & Hi).
  unfold analyze_statement in Hi. apply issue_of_inv in Hi. destruct Hi as (-> & _).
  exists main_table. cbn [snippet shape_of stmt fst snd].
  rewrite (statements_stripped _ _ _ Hm). exact Hm.
Qed.

Lemma subseq_skip (l1 l2 : list string) (y : string) :
  subseq l1 l2 -> subseq l1 (y :: l2).
Proof. destruct l1; simpl; auto. Qed.

Lemma lower_contains_select (a w b : list ascii) :
  lang select_full_pattern w ->
  Py.is_infix (Py.chars "select") (map Chr.lower (a ++ w ++ b)%list) = true.
Proof.
  intros L. destruct (statement_select L) as (rest & E).
  rewrite !map_app, E. apply is_infix_right, is_infix_left, is_infix_left, is_infix_self.
Qed.

(** Without [select] or without a period there is no statement. *)
Lemma no_statement_no_issue (code : string) :
  Py.contains (Py.lower code) "select" = false \/ Py.contains code "." = false ->
  statements code = [] /\ analyze_and_suggest code = [].
Proof.
  intros H.
  assert (statements code = []) as E.
  { destruct (statements code) as [|(o, t) l] eqn:S; [reflexivity|]. exfalso.
    assert (In (o, t) (statements code)) as HI by (rewrite S; left; reflexivity).
    destruct (statements_hit _ _ _ HI) as (m & Hi & _ & _ & L & _).
    destruct (scan_hit_piece _ _ _ _ _ Hi) as (a & b & P).
    destruct H as [H|H].
    - unfold Py.contains, Py.lower in H. rewrite chars_text, P in H.
      rewrite (lower_contains_select a b L) in H. discriminate.
    - destruct (lang_ends _ _ select_full_ends _ L) as (w' & c & Ew & _).
      assert (c = dot) as ->.
      { revert L. rewrite Ew. clear.
        change select_full_pattern with
          (Grp 1 (Cat (ilit "select") (Cat (Plus lazy Chr.any) (Cat (ilit "from")
             (Cat (Plus greedy Chr.is_space) (Cat (Grp 2 (Plus greedy Chr.is_ident))
                (Cat (Star lazy Chr.any) (Cls (Chr.eq dot))))))))).
        cbn [lang]. intros (? & ? & E1 & _ & ? & ? & -> & _ & ? & ? & -> & _
                            & ? & ? & -> & _ & ? & ? & -> & _ & ? & ? & -> & _ & d & -> & Hd).
        apply Ascii.eqb_eq in Hd. subst d.
        rewrite !app_assoc in E1. apply app_inj_tail in E1. destruct E1 as (_ & ->).
        reflexivity. }
      unfold Py.contains in H. rewrite P, Ew in H.
      rewrite is_infix_right in H; [discriminate|].
      apply is_infix_left, is_infix_right. reflexivity. }
  split; [exact E|].
  unfold analyze_and_suggest, suggestions_of. rewrite E. reflexivity.
Qed.

(** Without [from] there is no statement either. *)
Lemma no_from_no_issue (code : string) :
  Py.contains (Py.lower code) "from" = false ->
  statements code = [] /\ analyze_and_suggest code = [].
Proof.
  intros H.
  assert (statements code = []) as E.
  { destruct (statements code) as [|(o, t) l] eqn:S; [reflexivity|]. exfalso.
    assert (In (o, t) (statements code)) as HI by (rewrite S; left; reflexivity).
    destruct (statements_hit _ _ _ HI) as (m & Hi & _ & _ & L & _).
    destruct (scan_hit_piece _ _ _ _ _ Hi) as (a & b & P).
    unfold Py.contains, Py.lower in H. rewrite chars_text, P in H.
    rewrite (statement_from a b L) in H. discriminate. }
  split; [exact E|].
  unfold analyze_and_suggest, suggestions_of. rewrite E. reflexivity.
Qed.

(** The extracted statements, one after the other, fit into the text. *)
Lemma statements_length (code : string) :
  list_sum (map (fun st => String.length (fst st)) (statements code))
  <= String.length code.
Proof.
  unfold statements, findall.
  pose proof (hits_length (scan select_full_pattern None (Py.chars code) 0)) as H.
  rewrite scan_parts in H by apply Nat.le_0_l. cbn [skipn] in H.
  rewrite <- (text_chars code) at 2. rewrite length_text.
  eapply Nat.le_trans; [|exact H]. clear H.
  assert (forall l, (forall m, In m l -> group 1 (groups m) = whole m) ->
                    list_sum (map (fun st : string * string => String.length (fst st))
                                  (map (fun m => (grp 1 m, grp 2 m)) l))
                    <= List.length (flat_map (fun m => whole m) l)) as A.
  { induction l as [|m l IH]; intros G; [apply le_n|].
    cbn [map list_sum flat_map fst]. rewrite length_app.
    unfold grp at 1. rewrite (G m (or_introl eq_refl)), length_text.
    apply Nat.add_le_mono_l. apply IH. intros m' Hm'. apply G. right. exact Hm'. }
  apply A. intros m Hm. unfold hits in Hm.
  apply in_flat_map in Hm. destruct Hm as (i & Hi & Hm).
  destruct i as [c|m']; [destruct Hm|]. destruct Hm as [->|[]].
  exact (proj1 (hit_statement _ _ _ _ Hi)).
Qed.

(** The snippets of the issues are statements of the text, in their
    order. *)
Lemma suggestions_subseq (l : list (string * string)) :
  (forall st, In st l -> Py.strip (fst st) = fst st) ->
  subseq (map snippet (flat_map (fun m => analyze_statement (fst m) (snd m)) l))
         (map fst l).
Proof.
  induction l as [|st l IH]; intros G; [exact I|].
  cbn [flat_map map]. unfold analyze_statement at 1, issue_of.
  destruct (issue_msgs (run_rules (shape_of (fst st) (snd st)))).
  - cbn [app]. apply subseq_skip. apply IH. intros st' H'. apply G. right. exact H'.
  - cbn [app map snippet shape_of stmt]. left. split.
    + apply G. left. reflexivity.
    + apply IH. intros st' H'. apply G. right. exact H'.
Qed.

End IssueFacts.

(* ------------------------------------------------------------------ *)
(** ** Further facts: the dictionary of tables to replace *)

Module DictFacts.

Import Re App Props.
Local Open Scope string_scope.

Lemma get_set_same (V : Type) (d : dict V) (k : string) (v : V) :
  get (set d k v) k = Some v.
Proof.
  induction d as [|(k', v') d IH]; simpl.
  - rewrite String.eqb_refl. reflexivity.
  - destruct (String.eqb k' k) eqn:E; simpl; rewrite E; [reflexivity|exact IH].
Qed.

Lemma get_set_other (V : Type) (d : dict V) (k k' : string) (v : V) :
  k' <> k -> get (set d k v) k' = get d k'.
Proof.
  intros N. induction d as [|(k0, v0) d IH]; simpl.
  - apply String.eqb_neq in N. rewrite String.eqb_sym, N. reflexivity.
  - destruct (String.eqb k0 k) eqn:E; simpl.
    + apply String.eqb_eq in E. subst k0.
      apply String.eqb_neq in N. rewrite String.eqb_sym, N. reflexivity.
    + rewrite IH. reflexivity.
Qed.

Lemma in_set (V : Type) (d : dict V) (k : string) (v : V) (e : string * V) :
  In e (set d k v) -> e = (k, v) \/ In e d.
Proof.
  induction d as [|(k', v') d IH]; simpl.
  - intros [H|[]]; auto.
  - destruct (String.eqb k' k) eqn:E; simpl.
    + apply String.eqb_eq in E. subst k'. intros [H|H]; auto.
    + intros [H|H]; auto. destruct (IH H); auto.
Qed.

Lemma keys_set (V : Type) (d : dict V) (k : string) (v : V) (k' : string) :
  In k' (map fst (set d k v)) -> k' = k \/ In k' (map fst d).
Proof.
  intros H. apply in_map_iff in H. destruct H as (e & <- & H).
  destruct (in_set _ _ _ _ H) as [->|H']; [left; reflexivity|].
  right. apply in_map. exact H'.
Qed.

Lemma nodup_set (V : Type) (d : dict V) (k : string) (v : V) :
  NoDup (map fst d) -> NoDup (map fst (set d k v)).
Proof.
  induction d as [|(k', v') d IH]; simpl; intros H.
  - constructor; [intros []|constructor].
  - inversion H as [|? ? N H']; subst.
    destruct (String.eqb k' k) eqn:E; simpl; constructor; auto.
    intros I. destruct (keys_set _ _ _ _ I) as [->|I']; [|exact (N I')].
    rewrite String.eqb_refl in E. discriminate.
Qed.

(** What holds of the empty dictionary and is kept by every assignment
    of a [TABLE_MAP] entry holds of [tables_to_replace]. *)
Lemma tables_to_replace_ind (P : dict string -> Prop) (stmt main_table_upper : string) :
  P [] ->
  (forall d k v, P d -> get TABLE_MAP k = Some v -> P (set d k v)) ->
  P (tables_to_replace stmt main_table_upper).
Proof.
  intros P0 PS. unfold tables_to_replace.
  assert (P (match get TABLE_MAP main_table_upper with
             | Some new_table => set [] main_table_upper new_table
             | None => []
             end)) as H0.
  { destruct (get TABLE_MAP main_table_upper) eqn:E; [apply PS; assumption|exact P0]. }
  revert H0. generalize (match get TABLE_MAP main_table_upper with
                         | Some new_table => set [] main_table_upper new_table
                         | None => []
                         end).
  induction (findall join_pattern stmt) as [|jm l IH]; intros d Hd; [exact Hd|].
  cbn [fold_left]. apply IH. cbv zeta.
  destruct (get TABLE_MAP (Py.upper (grp 1 jm))) eqn:E; [apply PS; assumption|exact Hd].
Qed.

End DictFacts.

(* ------------------------------------------------------------------ *)
(** ** Further facts: the messages of the rules *)

Module MessageFacts.

Import Re App Props PyFacts.
Local Open Scope string_scope.

Lemma extends_refl (w : work) : extends w w.
Proof. exists []. split; [symmetry; apply app_nil_r|constructor]. Qed.

Lemma extends_trans (w1 w2 w3 : work) : extends w1 w2 -> extends w2 w3 -> extends w1 w3.
Proof.
  intros (t1 & E1 & F1) (t2 & E2 & F2). exists (t1 ++ t2)%list. split.
  - rewrite E2, E1. symmetry. apply app_assoc.
  - apply Forall_app. auto.
Qed.

Lemma extends_say (w : work) (msg : string) : msg <> "" -> extends w (say w msg).
Proof. intros N. exists [msg]. split; [reflexivity|]. constructor; [exact N|constructor]. Qed.

Lemma extends_rewrite (w w' : work) (code : string) : extends w w' -> extends w (rewrite w' code).
Proof. intros (t & E & F). exists t. auto. Qed.

Ltac lit := let H := fresh in intros H; discriminate H.

Lemma remap_tables_msgs (d : dict string) :
  forall w, issue_msgs (remap_tables d w) = (issue_msgs w ++ map replacement_message d)%list.
Proof.
  unfold remap_tables. induction d as [|t d IH]; intros w; cbn [fold_left map].
  - symmetry. apply app_nil_r.
  - rewrite IH. unfold replace_table, rewrite, say. cbn [issue_msgs].
    rewrite <- app_assoc. reflexivity.
Qed.

Lemma field_rule_extends (fields table : string) (w : work) :
  extends w (fst (field_rule fields table w)).
Proof.
  unfold field_rule, wildcard_rule. destruct (is_wildcard fields); [|apply extends_refl].
  cbn [fst]. apply extends_rewrite.
  destruct (Py.truthy (suggested_fields table)); apply extends_say; lit.
Qed.

Lemma single_rule_extends (stmt fields explicit_fields table : string) (w : work) :
  extends w (single_rule stmt fields explicit_fields table w).
Proof.
  unfold single_rule. destruct (is_single fields); [|apply extends_refl].
  cbv zeta. apply extends_rewrite.
  match goal with |- context [if ?b then _ else _] => destruct b end.
  - eapply extends_trans; apply extends_say; lit.
  - apply extends_say; lit.
Qed.

Lemma single_order_rule_extends (stmt fields : string) (w : work) :
  extends w (single_order_rule stmt fields w).
Proof.
  unfold single_order_rule.
  destruct (is_single fields && Py.contains (Py.lower stmt) "order by")%bool;
    [apply extends_say; lit|apply extends_refl].
Qed.

Lemma ordering_rule_extends (stmt fields explicit_fields table : string) (w : work) :
  extends w (ordering_rule stmt fields explicit_fields table w).
Proof.
  unfold ordering_rule. destruct (fae_present stmt).
  - destruct (order_by_match stmt).
    + apply extends_rewrite, extends_say. unfold fae_order_message. lit.
    + destruct (negb (is_single fields)); [|apply extends_refl].
      cbv zeta. destruct (usable _); [apply extends_say; lit|apply extends_refl].
  - destruct (negb (is_single fields) && negb (truth (order_by_match stmt)))%bool;
      [|apply extends_refl].
    cbv zeta. destruct (usable _); [|apply extends_refl].
    apply extends_rewrite, extends_say. lit.
Qed.

(** The messages of a statement: one for each table to replace, then
    the messages of the other rules; none is empty. *)
Lemma run_rules_msgs (sh : shape) :
  exists tail,
    issue_msgs (run_rules sh) = (map replacement_message (replaced sh) ++ tail)%list
    /\ Forall (fun m => m <> "") tail.
Proof.
  unfold run_rules, before_ordering. cbv zeta. cbn [fst snd].
  pose proof (remap_tables_msgs (replaced sh) (mkWork [] (stmt sh))) as R.
  cbn [issue_msgs app] in R.
  set (w1 := remap_tables (replaced sh) (mkWork [] (stmt sh))) in *.
  assert (extends w1
            (ordering_rule (stmt sh) (fields sh)
               (snd (field_rule (fields sh) (adjusted_main_table sh) w1))
               (adjusted_main_table sh)
               (single_order_rule (stmt sh) (fields sh)
                  (single_rule (stmt sh) (fields sh)
                     (snd (field_rule (fields sh) (adjusted_main_table sh) w1))
                     (adjusted_main_table sh)
                     (fst (field_rule (fields sh) (adjusted_main_table sh) w1)))))) as E.
  { eapply extends_trans; [apply field_rule_extends|].
    eapply extends_trans; [apply single_rule_extends|].
    eapply extends_trans; [apply single_order_rule_extends|].
    apply ordering_rule_extends. }
  destruct E as (tail & E & F). exists tail. rewrite E, R. auto.
Qed.

Lemma replacement_message_nonempty (t : string * string) : replacement_message t <> "".
Proof. unfold replacement_message. lit. Qed.

Lemma join_nonempty (sep x : string) (l : list string) :
  x <> "" -> Py.join sep (x :: l) <> "".
Proof.
  intros N. destruct l; cbn [Py.join]; [exact N|].
  destruct x; [contradiction|discriminate].
Qed.

End MessageFacts.

(* ------------------------------------------------------------------ *)
(** ** Further properties of the program *)

Import ReFacts Props ScanFacts StatementFacts IssueFacts DictFacts MessageFacts.
Local Open Scope string_scope.

(** X1: a text that holds no [from] (in any letter case) or no period
    holds no statement for [select_full_pattern], and
    [analyze_and_suggest] returns the empty result for it; so does an
    ASCII text that holds no [select] (in any letter case). *)
Theorem X1_no_select_or_no_period_no_issue (code : string) :
  (ascii_text code = true /\ Py.contains (Py.lower code) "select" = false)
  \/ Py.contains (Py.lower code) "from" = false
  \/ Py.contains code "." = false ->
  statements code = [] /\ analyze_and_suggest code = [].
Proof.
  intros [(_ & H)|[H|H]].
  - exact (no_statement_no_issue code (or_introl H)).
  - exact (no_from_no_issue code H).
  - exact (no_statement_no_issue code (or_intror H)).
Qed.

Lemma X1_witness :
  ascii_text "UPDATE marc SET werks = '1000'." = true
  /\ Py.contains (Py.lower "UPDATE marc SET werks = '1000'.") "select" = false
  /\ analyze_and_suggest "UPDATE marc SET werks = '1000'." = [].
Proof.
  split; [vm_compute; reflexivity|]. split; [vm_compute; reflexivity|].
  apply (@X1_no_select_or_no_period_no_issue "UPDATE marc SET werks = '1000'.").
  left. split; vm_compute; reflexivity.
Defined.

(** X2: a unit whose source text is missing, empty or without a period
    comes back from [analyze_code] with an empty [issues] list. *)
Theorem X2_unit_without_statement (u : Unit) :
  Py.contains (code_or_empty u) "." = false ->
  issues (analyze_unit u) = [].
Proof.
  intros H. unfold analyze_unit. cbn [issues].
  destruct (no_statement_no_issue (code_or_empty u) (or_intror H)) as (_ & ->).
  reflexivity.
Qed.

Lemma X2_witness :
  let u := mkUnit "ZPROG" "ZINCL" "FORM" None None None None None in
  Py.contains (code_or_empty u) "." = false /\ issues (analyze_unit u) = [].
Proof.
  cbv zeta. split; [vm_compute; reflexivity|].
  apply X2_unit_without_statement. vm_compute. reflexivity.
Defined.

(** X3: the snippet of every issue is a piece of the analysed text,
    character for character. *)
Theorem X3_snippet_is_piece_of_text (code : string) (i : Issue) :
  In i (suggestions_of code) ->
  exists a b, code = a ++ snippet i ++ b.
Proof.
  intros H. destruct (suggestions_statement _ _ H) as (t & Ht).
  exact (statements_piece _ _ _ Ht).
Qed.

Lemma X3_witness :
  let code := "DATA x. SELECT a FROM t INTO x. WRITE x." in
  exists i, In i (suggestions_of code)
            /\ snippet i = "SELECT a FROM t INTO x."
            /\ exists a b, code = a ++ snippet i ++ b.
Proof.
  cbv zeta. eexists. split; [vm_compute; left; reflexivity|].
  split; [reflexivity|].
  apply (@X3_snippet_is_piece_of_text "DATA x. SELECT a FROM t INTO x. WRITE x.").
  vm_compute. left. reflexivity.
Defined.

(** X4: the statements extracted from a text do not overlap: their
    lengths add up to no more than the length of the text. *)
Theorem X4_statements_do_not_overlap (code : string) :
  list_sum (map (fun st => String.length (fst st)) (statements code))
  <= String.length code.
Proof. exact (statements_length code). Qed.

(** X5: the engine produces at most one issue for each extracted
    statement, in the order of the statements: the snippets of the
    issues are the statements of the text with some left out. *)
Theorem X5_issues_follow_statements (code : string) :
  subseq (map snippet (suggestions_of code)) (map fst (statements code))
  /\ List.length (suggestions_of code) <= List.length (statements code).
Proof.
  split.
  - apply suggestions_subseq. intros (o, t) H. exact (statements_stripped _ _ _ H).
  - unfold suggestions_of. induction (statements code) as [|st l IH]; [apply le_n|].
    cbn [flat_map]. rewrite length_app. unfold analyze_statement at 1, issue_of.
    destruct (issue_msgs _); simpl; lia.
Qed.

(** X6: every statement extracted from an ASCII text starts with
    [select] (in any letter case), holds [from], and ends with a period,
    the only one at its end; it has no white space at either end. *)
Theorem X6_statement_shape (code orig_stmt main_table : string) :
  ascii_text code = true ->
  In (orig_stmt, main_table) (statements code) ->
  Py.startswith (Py.lower orig_stmt) "select" = true
  /\ Py.contains (Py.lower orig_stmt) "from" = true
  /\ (exists body, orig_stmt = body ++ "." /\ Py.rstrip_dot orig_stmt = body)
  /\ Py.strip orig_stmt = orig_stmt.
Proof.
  intros _ H. split; [|split; [|split]].
  - destruct (statements_hit _ _ _ H) as (m & _ & -> & _ & L & _).
    destruct (statement_select L) as (rest & E).
    unfold Py.lower. rewrite chars_text, E, text_app. apply startswith_app.
  - destruct (statements_hit _ _ _ H) as (m & _ & -> & _ & L & _).
    unfold Py.contains, Py.lower. rewrite !chars_text.
    pose proof (@statement_from [] (whole m) [] L) as F.
    cbn [app] in F. rewrite app_nil_r in F. exact F.
  - exact (statements_period _ _ _ H).
  - exact (statements_stripped _ _ _ H).
Qed.

Lemma X6_witness :
  let code := "DATA x. select a
  from t into x. WRITE x." in
  ascii_text code = true
  /\ In ("select a
  from t into x.", "t") (statements code)
  /\ Py.startswith (Py.lower "select a
  from t into x.") "select" = true.
Proof.
  cbv zeta. split; [vm_compute; reflexivity|].
  split; [vm_compute; left; reflexivity|].
  refine (proj1 (@X6_statement_shape "DATA x. select a
  from t into x. WRITE x." _ "t" _ _)).
  - vm_compute. reflexivity.
  - vm_compute. left. reflexivity.
Defined.

(** X7: the table name extracted with a statement of an ASCII text is
    never empty and holds only letters, digits and underscores. *)
Theorem X7_table_name_is_identifier (code orig_stmt main_table : string) :
  ascii_text code = true ->
  In (orig_stmt, main_table) (statements code) ->
  main_table <> "" /\ Forall (fun c => Chr.is_ident c = true) (Py.chars main_table).
Proof.
  intros _ H. destruct (statements_hit _ _ _ H) as (m & _ & _ & -> & _ & N & F).
  split.
  - intros E. apply N. rewrite <- (chars_text (group 2 (groups m))), E. reflexivity.
  - rewrite chars_text. exact F.
Qed.

Lemma X7_witness :
  ascii_text "SELECT a FROM zt_01 INTO x." = true
  /\ In ("SELECT a FROM zt_01 INTO x.", "zt_01") (statements "SELECT a FROM zt_01 INTO x.")
  /\ "zt_01" <> "".
Proof.
  split; [vm_compute; reflexivity|].
  split; [vm_compute; left; reflexivity|].
  refine (proj1 (@X7_table_name_is_identifier "SELECT a FROM zt_01 INTO x." _ "zt_01" _ _)).
  - vm_compute. reflexivity.
  - vm_compute. left. reflexivity.
Defined.

(** X8: [tables_to_replace] holds each table at most once, and every
    pair in it is an entry of [TABLE_MAP]: a table is only ever replaced
    by the table that [TABLE_MAP] gives for it. *)
Theorem X8_tables_to_replace_from_table_map (stmt main_table_upper : string) :
  NoDup (map fst (tables_to_replace stmt main_table_upper))
  /\ Forall (fun t => get TABLE_MAP (fst t) = Some (snd t))
            (tables_to_replace stmt main_table_upper).
Proof.
  apply (tables_to_replace_ind
           (fun d => NoDup (map fst d)
                     /\ Forall (fun t => get TABLE_MAP (fst t) = Some (snd t)) d)).
  - split; constructor.
  - intros d k v (N & F) E. split; [apply nodup_set; exact N|].
    apply Forall_forall. intros e He.
    destruct (in_set _ _ _ _ He) as [->|He']; [exact E|].
    rewrite Forall_forall in F. exact (F _ He').
Qed.

(** X9: the table that stands for the main table in the rewrites
    ([adjusted_main_table]) is the entry of [TABLE_MAP] for the main
    table when there is one, else the main table itself in upper case;
    the joined tables of the statement have no influence on it. *)
Theorem X9_adjusted_main_table (orig_stmt main_table : string) :
  adjusted_main_table (shape_of orig_stmt main_table) =
  match get TABLE_MAP (Py.upper main_table) with
  | Some new_table => new_table
  | None => Py.upper main_table
  end.
Proof.
  unfold shape_of. cbn [adjusted_main_table].
  assert (get (tables_to_replace (Py.strip orig_stmt) (Py.upper main_table))
              (Py.upper main_table)
          = get TABLE_MAP (Py.upper main_table)) as ->; [|reflexivity].
  unfold tables_to_replace.
  assert (get (match get TABLE_MAP (Py.upper main_table) with
               | Some new_table => set [] (Py.upper main_table) new_table
               | None => []
               end) (Py.upper main_table) = get TABLE_MAP (Py.upper main_table)) as H0.
  { destruct (get TABLE_MAP (Py.upper main_table)); [apply get_set_same|reflexivity]. }
  revert H0. generalize (match get TABLE_MAP (Py.upper main_table) with
                         | Some new_table => set [] (Py.upper main_table) new_table
                         | None => []
                         end).
  induction (findall join_pattern (Py.strip orig_stmt)) as [|jm l IH]; intros d Hd;
    [exact Hd|].
  cbn [fold_left]. apply IH. cbv zeta.
  destruct (get TABLE_MAP (Py.upper (grp 1 jm))) as [v|] eqn:E; [|exact Hd].
  destruct (String.eqb (Py.upper main_table) (Py.upper (grp 1 jm))) eqn:Q.
  - apply String.eqb_eq in Q. rewrite <- Q in *. rewrite get_set_same. symmetry. exact E.
  - apply String.eqb_neq in Q. rewrite get_set_other by exact Q. exact Hd.
Qed.

(** X10: in the suggestion of an issue the messages about replaced
    tables come first, one for each entry of [tables_to_replace] in its
    order; the messages of the other rules follow. *)
Theorem X10_replacement_messages_first (orig_stmt main_table : string) (i : Issue) :
  In i (analyze_statement orig_stmt main_table) ->
  exists tail,
    suggestion i =
    Py.join " " (map replacement_message (replaced (shape_of orig_stmt main_table)) ++ tail).
Proof.
  unfold analyze_statement. intros H. apply issue_of_inv in H. destruct H as (-> & _).
  destruct (run_rules_msgs (shape_of orig_stmt main_table)) as (tail & E & _).
  exists tail. cbn [suggestion]. rewrite E. reflexivity.
Qed.

Lemma X10_witness :
  let text := "SELECT a FROM marc INNER JOIN mard ON marc~matnr = mard~matnr ORDER BY a." in
  exists i,
    In i (analyze_statement text "marc")
    /\ replaced (shape_of text "marc") = [("MARC", "NSDM_V_MARC"); ("MARD", "NSDM_V_MARD")]
    /\ exists tail,
         suggestion i =
         Py.join " " (map replacement_message (replaced (shape_of text "marc")) ++ tail).
Proof.
  cbv zeta. eexists. split; [vm_compute; left; reflexivity|].
  split; [vm_compute; reflexivity|].
  apply X10_replacement_messages_first. vm_compute. left. reflexivity.
Defined.

(** X11: no issue has an empty suggestion. *)
Theorem X11_suggestion_not_empty (code : string) (i : Issue) :
  In i (suggestions_of code) -> suggestion i <> "".
Proof.
  unfold suggestions_of. intros H.
  apply in_flat_map in H. destruct H as ((orig_stmt & main_table) & _ & Hi).
  unfold analyze_statement in Hi. apply issue_of_inv in Hi. destruct Hi as (-> & N).
  cbn [suggestion fst snd] in *.
  destruct (run_rules_msgs (shape_of orig_stmt main_table)) as (tail & E & F).
  destruct (issue_msgs (run_rules (shape_of orig_stmt main_table))) as [|x l];
    [exfalso; apply N; reflexivity|].
  apply join_nonempty.
  destruct (map replacement_message (replaced (shape_of orig_stmt main_table))) as [|y m] eqn:M.
  - cbn [app] in E. rewrite <- E in F. inversion F. assumption.
  - cbn [app] in E. injection E as -> _.
    destruct (replaced (shape_of orig_stmt main_table)) as [|t d]; [discriminate|].
    cbn [map] in M. injection M as <- _. apply replacement_message_nonempty.
Qed.

Lemma X11_witness :
  exists i, In i (suggestions_of "SELECT * FROM t.") /\ suggestion i <> "".
Proof.
  eexists. split; [vm_compute; left; reflexivity|].
  apply (@X11_suggestion_not_empty "SELECT * FROM t."). vm_compute. left. reflexivity.
Defined.

(* ------------------------------------------------------------------ *)
(** ** Further facts: deleting where nothing matches *)

Module DeletionFacts.

Import Re ReFacts PyFacts App AppFacts.
Local Open Scope list_scope.

Section Pattern.

Variable r : regex.
Variable q : ascii -> bool.
Hypothesis r_unanchored : unanchored r = true.
Hypothesis r_nonempty : nonempty r = true.
Hypothesis r_within : within q r.
Hypothesis r_run_last : run_last q r.

Lemma search_none_inv :
  forall t pv, search_l r pv t = None ->
  forall a u, t = a ++ u -> ~ hit r u.
Proof.
  induction t as [|c t IH]; intros pv H a u E.
  - symmetry in E. apply app_eq_nil in E. destruct E as (_ & ->).
    exact (@Deletion.no_hit_nil r q r_nonempty r_within).
  - cbn [search_l] in H. destruct (first r pv (c :: t)) eqn:F; [discriminate|].
    destruct a as [|c' a].
    + simpl in E. subst u. exact (@Deletion.first_none r r_unanchored _ _ F).
    + injection E as _ E. exact (IH _ H a u E).
Qed.

Lemma deleted_same :
  forall t pv, (forall a u, t = a ++ u -> ~ hit r u) -> deleted r pv t = t.
Proof.
  induction t as [|c t IH]; intros pv H.
  - exact (@Deletion.deleted_nil r q r_nonempty r_within r_run_last pv).
  - rewrite Deletion.deleted_miss.
    + f_equal. apply IH. intros a u E. apply (H (c :: a) u). simpl. congruence.
    + apply (@Deletion.no_hit_first r q r_nonempty r_run_last).
      exact (H [] (c :: t) eq_refl).
Qed.

End Pattern.

(** Where the [ORDER BY] pattern finds nothing, line 157 changes
    nothing. *)
Lemma strip_order_by_same (code : string) :
  order_by_match code = None -> strip_order_by code = code.
Proof.
  unfold order_by_match, strip_order_by, search, sub. intros H.
  change (glue (fun _ => Py.chars "") (scan order_by_pattern None (Py.chars code) 0))
    with (deleted order_by_pattern None (Py.chars code)).
  rewrite (@deleted_same order_by_pattern is_order_char eq_refl
             order_by_within order_by_run_last).
  - apply text_chars.
  - exact (@search_none_inv order_by_pattern is_order_char eq_refl eq_refl
             order_by_within _ _ H).
Qed.

End DeletionFacts.

Import DeletionFacts.

(** X12: removing the [ORDER BY] clauses (line 157) from a text in
    which the [ORDER BY] pattern finds nothing gives the text back
    unchanged. *)
Theorem X12_strip_order_by_without_order_by (code : string) :
  order_by_match code = None -> strip_order_by code = code.
Proof. exact (strip_order_by_same code). Qed.

Lemma X12_witness :
  order_by_match "SELECT a FROM t WHERE b = 'order by'." = None
  /\ strip_order_by "SELECT a FROM t WHERE b = 'order by'."
     = "SELECT a FROM t WHERE b = 'order by'.".
Proof.
  split; [vm_compute; reflexivity|].
  apply X12_strip_order_by_without_order_by. vm_compute. reflexivity.
Defined.

(** X13: removing the [ORDER BY] clauses a second time changes nothing
    any more. *)
Theorem X13_strip_order_by_idempotent (code : string) :
  strip_order_by (strip_order_by code) = strip_order_by code.
Proof. apply strip_order_by_same, strip_order_by_clean. Qed.

(* ------------------------------------------------------------------ *)
(** ** Further facts: the field specification *)

Module FieldFacts.

Import Re ReFacts PyFacts App AppFacts Props ScanFacts.
Local Open Scope list_scope.

Lemma lower_space (c : ascii) : Chr.is_space (Chr.lower c) = Chr.is_space c.
Proof. destruct c as [[] [] [] [] [] [] [] []]; reflexivity. Qed.

Lemma lstrip_l_split (l : list ascii) :
  exists a, l = a ++ Py.lstrip_l l /\ Forall (holds Chr.is_space) a.
Proof.
  induction l as [|c l IH]; [exists []; split; [reflexivity|constructor]|].
  simpl. destruct (Chr.is_space c) eqn:E.
  - destruct IH as (a & Ha & Fa). exists (c :: a). split.
    + simpl. congruence.
    + constructor; assumption.
  - exists []. split; [reflexivity|constructor].
Qed.

Lemma rstrip_l_split (l : list ascii) :
  exists b, l = Py.rstrip_l l ++ b /\ Forall (holds Chr.is_space) b.
Proof.
  unfold Py.rstrip_l. destruct (lstrip_l_split (rev l)) as (a & Ha & Fa).
  exists (rev a). split.
  - rewrite <- rev_app_distr, <- Ha. symmetry. apply rev_involutive.
  - apply Forall_rev. exact Fa.
Qed.

(** What [strip] leaves of a text lies between two runs of white
    space. *)
Lemma strip_split (g : list ascii) :
  exists a b,
    g = a ++ Py.chars (Py.strip (Py.text g)) ++ b
    /\ Forall (holds Chr.is_space) a /\ Forall (holds Chr.is_space) b.
Proof.
  unfold Py.strip. rewrite !chars_text.
  destruct (lstrip_l_split g) as (a & Ha & Fa).
  destruct (rstrip_l_split (Py.lstrip_l g)) as (b & Hb & Fb).
  exists a, b. split; [|auto]. rewrite <- Hb. exact Ha.
Qed.

Lemma lang_spaces (c : ascii) (l : list ascii) :
  Forall (holds Chr.is_space) (c :: l) -> lang (Plus greedy Chr.is_space) (c :: l).
Proof.
  intros F. inversion F as [|? ? Hc Hl]; subst.
  cbn [lang Plus]. exists [c], l. split; [reflexivity|]. split; [exists c; auto|exact Hl].
Qed.

Lemma spaces_inv (w : list ascii) :
  lang (Plus greedy Chr.is_space) w ->
  exists c l, w = c :: l /\ Forall (holds Chr.is_space) (c :: l).
Proof.
  cbn [lang Plus]. intros (w1 & w2 & -> & (c & -> & Hc) & F).
  exists c, w2. split; [reflexivity|]. constructor; assumption.
Qed.

Lemma first_cat_full (r1 r2 : regex) (pv : option ascii) (s : list ascii) (g : caps) (x : point) :
  hd_error (mt (Cat r1 r2) pv s g) = Some x ->
  exists y w,
    In y (mt r1 pv s g) /\ s = w ++ rest_of y /\ lang r1 w
    /\ hd_error (mt r2 (fst (fst y)) (rest_of y) (snd y)) = Some x.
Proof.
  intros H. apply first_cat_in in H. destruct H as (y & Hy & H).
  destruct (mt_sound _ _ _ _ _ Hy) as (w & Hs & L).
  exists y, w. auto.
Qed.

(** When the field specification matched by [sel_fields_pattern] is
    the wildcard, the text starts with a word of [select_star_pattern]. *)
Lemma star_fields_start (s : list ascii) (x : point) :
  first sel_fields_pattern None s = Some x ->
  Py.strip (Py.text (group 1 (snd x))) = "*"%string ->
  hit select_star_pattern s.
Proof.
  unfold first. intros H S.
  change sel_fields_pattern with
    (Cat (ilit "select") (Cat (Plus greedy Chr.is_space)
       (Cat (Grp 1 (Star lazy Chr.not_lf)) (Cat (Plus greedy Chr.is_space) (ilit "from"))))) in H.
  apply first_cat_full in H. destruct H as (y1 & w1 & I1 & E1 & L1 & H).
  apply (mt_groupless _ (eq_refl : groupless (ilit "select") = true)) in I1.
  rewrite I1 in H. clear I1.
  apply first_cat_full in H. destruct H as (y2 & w2 & I2 & E2 & L2 & H).
  apply (mt_groupless _ (eq_refl : groupless (Plus greedy Chr.is_space) = true)) in I2.
  rewrite I2 in H. clear I2.
  apply first_cat_in in H. destruct H as (y3 & I3 & H).
  apply (mt_group 1 _ (eq_refl : groupless (Star lazy Chr.not_lf) = true)) in I3.
  destruct I3 as (g & E3 & _ & C3). rewrite C3 in H.
  apply hd_error_in in H.
  pose proof (mt_groupless _ (eq_refl : groupless (Cat (Plus greedy Chr.is_space) (ilit "from")) = true)
                           _ _ _ _ H) as C4.
  destruct (mt_sound _ _ _ _ _ H) as (w4 & E4 & L4).
  rewrite C4 in S. cbn [group Nat.eqb] in S.
  destruct (strip_split g) as (a & b & Eg & Fa & Fb). rewrite S in Eg.
  change (Py.chars "*") with [star] in Eg.
  cbn [lang] in L4. destruct L4 as (w4a & w4b & -> & L4a & L4b).
  apply spaces_inv in L2. destruct L2 as (c2 & l2 & -> & F2).
  apply spaces_inv in L4a. destruct L4a as (c4 & l4 & -> & F4).
  exists (w1 ++ ((c2 :: l2) ++ a) ++ [star] ++ (b ++ c4 :: l4) ++ w4b), (rest_of x).
  split.
  - rewrite E1, E2, E3, Eg, E4. rewrite <- !app_assoc. reflexivity.
  - change select_star_pattern with
      (Cat (ilit "select") (Cat (Plus greedy Chr.is_space)
         (Cat (Cls (Chr.eq star)) (Cat (Plus greedy Chr.is_space) (ilit "from"))))).
    cbn [lang]. exists w1, (((c2 :: l2) ++ a) ++ [star] ++ (b ++ c4 :: l4) ++ w4b).
    split; [reflexivity|]. split; [exact L1|].
    exists ((c2 :: l2) ++ a), ([star] ++ (b ++ c4 :: l4) ++ w4b).
    split; [reflexivity|]. split.
    { apply (@lang_spaces c2 (l2 ++ a)).
      change (Forall (holds Chr.is_space) ((c2 :: l2) ++ a)).
      apply Forall_app. auto. }
    exists [star], ((b ++ c4 :: l4) ++ w4b).
    split; [reflexivity|]. split; [exists star; split; reflexivity|].
    exists (b ++ c4 :: l4), w4b. split; [reflexivity|]. split; [|exact L4b].
    destruct b as [|cb b].
    + apply lang_spaces. exact F4.
    + apply (@lang_spaces cb (b ++ c4 :: l4)).
      change (Forall (holds Chr.is_space) ((cb :: b) ++ c4 :: l4)).
      apply Forall_app. auto.
Qed.

(** Where the pattern matches at the start of the text, the result of
    [re.sub] starts with the replacement. *)
Lemma sub_starts (r : regex) (repl : found -> string) (s : string) (x : point) :
  first r None (Py.chars s) = Some x ->
  exists tail, sub r repl s = (repl (found_at (Py.chars s) x) ++ tail)%string.
Proof.
  intros H. unfold sub.
  assert (exists items, scan r None (Py.chars s) 0 = Hit (found_at (Py.chars s) x) :: items)
    as (items & ->).
  { destruct (Py.chars s) as [|c l]; cbn [scan]; rewrite H; eexists; reflexivity. }
  cbn [glue flat_map]. rewrite text_app, text_chars. eexists. reflexivity.
Qed.

Lemma wildcard_not_single (fields : string) :
  is_wildcard fields = true -> is_single fields = false.
Proof.
  intros W.
  unfold is_wildcard in W. apply orb_prop in W. destruct W as [W|W].
    - apply String.eqb_eq in W. subst fields. reflexivity.
    - apply String.eqb_eq in W.
      assert (Py.strip fields = fields) as K.
      { rewrite <- (text_chars fields). unfold Py.lower in W.
        apply (f_equal Py.chars) in W. rewrite chars_text in W.
        destruct (Py.chars fields) as [|c l]; [discriminate|].
        assert (Chr.not_space c = true) as Hc.
        { injection W as W _. unfold Chr.not_space.
          rewrite <- lower_space, W. reflexivity. }
        apply strip_keeps; [exists c, l; auto|].
        destruct (@exists_last _ (c :: l)) as (l' & d & E); [discriminate|].
        exists l', d. split; [exact E|].
        rewrite E, map_app in W. cbn [map] in W.
        change (Py.chars "distinct *")
          with (Py.chars "distinct " ++ ["*"%char])%list in W.
        apply app_inj_tail in W. destruct W as (_ & W).
        unfold Chr.not_space. rewrite <- lower_space, W. reflexivity. }
      unfold is_single. rewrite K, W. reflexivity.
Qed.

End FieldFacts.

Import FieldFacts.

(** X14: a field specification that counts as a wildcard ([*], or
    [distinct *] in any case) never counts as single-row: the
    single-row rule leaves every such statement as it is, so a statement
    gets the wildcard handling or the single-row rebuild, never both
    from the same field specification. *)
Theorem X14_wildcard_is_not_single (fields : string) :
  is_wildcard fields = true ->
  is_single fields = false
  /\ forall stmt explicit_fields table w,
       single_rule stmt fields explicit_fields table w = w.
Proof.
  intros W. pose proof (wildcard_not_single fields W) as S.
  split; [exact S|]. intros stmt explicit_fields table w.
  unfold single_rule. rewrite S. reflexivity.
Qed.

Lemma X14_witness :
  is_wildcard "Distinct *" = true /\ is_single "Distinct *" = false.
Proof.
  split; [vm_compute; reflexivity|].
  apply X14_wildcard_is_not_single. vm_compute. reflexivity.
Defined.

(** X15: when the text between [select] and [from] of a statement is
    the wildcard [*] and the adjusted code is still the statement (no
    table was replaced), the field rule puts the replacement in place of
    the wildcard: afterwards the adjusted code starts with [SELECT], the
    suggested fields of the table (or the placeholder) and [FROM]. *)
Theorem X15_wildcard_replaced (stmt table : string) (m : found) (w : work) :
  rmatch sel_fields_pattern stmt = Some m ->
  Py.strip (grp 1 m) = "*" ->
  adjusted w = stmt ->
  is_wildcard (select_fields stmt) = true
  /\ Py.startswith (adjusted (fst (field_rule (select_fields stmt) table w)))
                   ("SELECT " ++ replacement_of table ++ " FROM") = true.
Proof.
  intros M S A.
  assert (select_fields stmt = "*") as F by (unfold select_fields; rewrite M; exact S).
  rewrite F. split; [reflexivity|].
  rewrite field_rule_adjusted, A. unfold wildcard_text. cbn [is_wildcard String.eqb orb].
  change (is_wildcard "*") with true. cbv iota.
  unfold rmatch, match_l in M.
  destruct (first sel_fields_pattern None (Py.chars stmt)) as [x|] eqn:Fx; [|discriminate].
  cbn [option_map] in M. injection M as <-.
  unfold grp, found_at in S. cbn [groups] in S.
  destruct (star_fields_start _ Fx S) as (w0 & t & E & L).
  destruct (mt_complete select_star_pattern eq_refl _ L None t []) as (x' & Hx' & _).
  rewrite <- E in Hx'.
  destruct (first select_star_pattern None (Py.chars stmt)) as [x0|] eqn:F0.
  - destruct (sub_starts select_star_pattern
                (fun _ => "SELECT " ++ replacement_of table ++ " FROM") stmt F0) as (tail & ->).
    apply startswith_app.
  - unfold first in F0. destruct (mt select_star_pattern None (Py.chars stmt) []);
      [destruct Hx'|discriminate].
Qed.

Lemma X15_witness :
  let stmt := "select
     *   from kna1 where kunnr = '1'." in
  exists m,
    rmatch sel_fields_pattern stmt = Some m
    /\ Py.strip (grp 1 m) = "*"
    /\ adjusted (fst (field_rule (select_fields stmt) "KNA1" (mkWork [] stmt)))
       = "SELECT KUNNR FROM kna1 where kunnr = '1'."
    /\ Py.startswith (adjusted (fst (field_rule (select_fields stmt) "KNA1" (mkWork [] stmt))))
                     ("SELECT " ++ replacement_of "KNA1" ++ " FROM") = true.
Proof.
  cbv zeta. eexists. split; [vm_compute; reflexivity|].
  split; [vm_compute; reflexivity|]. split; [vm_compute; reflexivity|].
  refine (proj2 (@X15_wildcard_replaced _ "KNA1" _ (mkWork [] _) _ _ _));
    vm_compute; reflexivity.
Defined.



(* ------------------------------------------------------------------ *)
(** ** Further facts: the normalised field list *)

Module FieldListFacts.

Import Re ReFacts PyFacts App AppFacts Props FieldFacts.
Local Open Scope list_scope.

Lemma split_comma_l_pieces (l : list ascii) :
  forall cur, Forall (fun c => Chr.eq "," c = false) cur ->
  Forall (Forall (fun c => Chr.eq "," c = false)) (Py.split_comma_l cur l).
Proof.
  induction l as [|c l IH]; intros cur F; cbn [Py.split_comma_l].
  - constructor; [apply Forall_rev; exact F|constructor].
  - destruct (Chr.eq "," c) eqn:E.
    + constructor; [apply Forall_rev; exact F|]. apply IH. constructor.
    + apply IH. constructor; assumption.
Qed.

Lemma lstrip_l_cases (l : list ascii) :
  Py.lstrip_l l = [] \/ exists c l', Py.lstrip_l l = c :: l' /\ Chr.not_space c = true.
Proof.
  induction l as [|c l IH]; [left; reflexivity|].
  simpl. destruct (Chr.is_space c) eqn:E; [exact IH|].
  right. exists c, l. split; [reflexivity|]. unfold Chr.not_space. rewrite E. reflexivity.
Qed.

Lemma strip_stripped (l : list ascii) :
  Py.strip (Py.text (Py.rstrip_l (Py.lstrip_l l))) = Py.text (Py.rstrip_l (Py.lstrip_l l)).
Proof.
  destruct (lstrip_l_cases l) as [->|(c & l' & -> & Hc)]; [reflexivity|].
  destruct (rstrip_l_split (c :: l')) as (b & Eb & Fb).
  assert (b <> c :: l') as Nb.
  { intros ->. inversion Fb as [|? ? Hs _].
    unfold Chr.not_space in Hc. unfold holds in Hs. rewrite Hs in Hc. discriminate. }
  apply strip_keeps.
  - destruct (Py.rstrip_l (c :: l')) as [|c0 y] eqn:Y.
    + simpl in Eb. symmetry in Eb. contradiction.
    + simpl in Eb. injection Eb as <- _. exists c, y. auto.
  - unfold Py.rstrip_l in *.
    destruct (lstrip_l_cases (rev (c :: l'))) as [E|(d & l2 & E & Hd)]; rewrite E in *.
    + simpl in Eb. symmetry in Eb. contradiction.
    + exists (rev l2), d. auto.
Qed.

(** [strip] applied to a stripped text changes nothing. *)
Lemma strip_strip (s : string) : Py.strip (Py.strip s) = Py.strip s.
Proof. unfold Py.strip at 2 3. apply strip_stripped. Qed.

Lemma strip_keeps_forall (P : ascii -> Prop) (g : list ascii) :
  Forall P g -> Forall P (Py.chars (Py.strip (Py.text g))).
Proof.
  intros F. destruct (strip_split g) as (a & b & E & _).
  rewrite E in F. apply Forall_app in F. destruct F as (_ & F).
  apply Forall_app in F. destruct F as (F & _). exact F.
Qed.

Lemma no_comma_infix (l : list ascii) :
  Forall (fun c => Chr.eq "," c = false) l -> Py.is_infix [","%char] l = false.
Proof.
  induction 1 as [|c l Hc _ IH]; [reflexivity|].
  cbn [Py.is_infix Py.is_prefix]. unfold Chr.eq in Hc. rewrite Hc, IH. reflexivity.
Qed.

(** The entries of the normalised field list. *)
Lemma field_name_list_entries (fields : string) :
  Forall (fun f => f <> ""%string /\ Py.strip f = f /\ Py.contains f "," = false)
         (field_name_list fields).
Proof.
  unfold field_name_list, Py.split_comma. apply Forall_forall. intros f H.
  apply filter_In in H. destruct H as (H & T).
  apply in_map_iff in H. destruct H as (p & <- & H).
  apply in_map_iff in H. destruct H as (g & <- & H).
  split; [|split].
  - intros E. rewrite E in T. discriminate.
  - apply strip_strip.
  - unfold Py.contains. apply no_comma_infix, strip_keeps_forall.
    pose proof (@split_comma_l_pieces (Py.chars (Py.remove fields "distinct")) [] (Forall_nil _)) as F.
    rewrite Forall_forall in F. exact (F _ H).
Qed.

End FieldListFacts.

Import FieldListFacts.

(** X17: every entry of the normalised field list (line 113), which
    the ordering rules put after [ORDER BY] and [SORT ... BY], is
    non-empty, has no white space at either end and holds no comma. *)
Theorem X17_field_name_list_entries (fields : string) :
  Forall (fun f => f <> "" /\ Py.strip f = f /\ Py.contains f "," = false)
         (field_name_list fields).
Proof. exact (field_name_list_entries fields). Qed.

(* ------------------------------------------------------------------ *)
(** ** Further facts: looking up the tables to replace, and the WHERE
    clause *)

Module LookupFacts.

Import Re ReFacts PyFacts App AppFacts Props ScanFacts DictFacts FieldFacts FieldListFacts.
Local Open Scope string_scope.

Lemma tables_to_replace_get (stmt main_table_upper k : string) :
  get (tables_to_replace stmt main_table_upper) k =
  if (String.eqb k main_table_upper
      || existsb (fun jm => String.eqb k (Py.upper (grp 1 jm))) (findall join_pattern stmt))%bool
  then get TABLE_MAP k else None.
Proof.
  unfold tables_to_replace.
  assert (get (match get TABLE_MAP main_table_upper with
               | Some new_table => set [] main_table_upper new_table
               | None => []
               end) k
          = if String.eqb k main_table_upper then get TABLE_MAP k else None) as H0.
  { destruct (String.eqb k main_table_upper) eqn:E.
    - apply String.eqb_eq in E. subst k.
      destruct (get TABLE_MAP main_table_upper); [apply get_set_same|reflexivity].
    - destruct (get TABLE_MAP main_table_upper); [|reflexivity].
      cbn [set get]. rewrite String.eqb_sym, E. reflexivity. }
  revert H0.
  generalize (match get TABLE_MAP main_table_upper with
              | Some new_table => set [] main_table_upper new_table
              | None => []
              end).
  generalize (String.eqb k main_table_upper).
  induction (findall join_pattern stmt) as [|jm l IH]; intros b0 d Hd.
  - cbn [fold_left existsb]. rewrite orb_false_r. exact Hd.
  - cbn [fold_left existsb]. cbv zeta. rewrite orb_assoc. apply IH.
    destruct (String.eqb k (Py.upper (grp 1 jm))) eqn:E.
    + apply String.eqb_eq in E. subst k. rewrite orb_true_r.
      destruct (get TABLE_MAP (Py.upper (grp 1 jm))) eqn:G; [apply get_set_same|].
      rewrite Hd. destruct b0; reflexivity.
    + rewrite orb_false_r.
      destruct (get TABLE_MAP (Py.upper (grp 1 jm))) eqn:G; [|exact Hd].
      apply String.eqb_neq in E. rewrite get_set_other by exact E. exact Hd.
Qed.

(** The text captured by group 1 of [where_pattern] holds no line
    feed. *)
Lemma where_group (pv : option ascii) (s : list ascii) (x : point) :
  first where_pattern pv s = Some x ->
  Forall (holds Chr.not_lf) (group 1 (snd x)).
Proof.
  unfold first. intros H.
  change where_pattern with
    (Cat (Plus greedy Chr.is_space) (Cat (ilit "where") (Cat (Plus greedy Chr.is_space)
       (Cat (Grp 1 (Plus lazy Chr.not_lf)) (Cat (Opt (Cls (Chr.eq dot))) Eos))))) in H.
  apply first_cat_in in H. destruct H as (y1 & I1 & H).
  apply (mt_groupless _ (eq_refl : groupless (Plus greedy Chr.is_space) = true)) in I1.
  rewrite I1 in H. clear I1.
  apply first_cat_in in H. destruct H as (y2 & I2 & H).
  apply (mt_groupless _ (eq_refl : groupless (ilit "where") = true)) in I2.
  rewrite I2 in H. clear I2.
  apply first_cat_in in H. destruct H as (y3 & I3 & H).
  apply (mt_groupless _ (eq_refl : groupless (Plus greedy Chr.is_space) = true)) in I3.
  rewrite I3 in H. clear I3.
  apply first_cat_in in H. destruct H as (y4 & I4 & H).
  apply (mt_group 1 _ (eq_refl : groupless (Plus lazy Chr.not_lf) = true)) in I4.
  destruct I4 as (g & _ & L & C). rewrite C in H.
  apply hd_error_in in H.
  apply (mt_groupless _ (eq_refl : groupless (Cat (Opt (Cls (Chr.eq dot))) Eos) = true)) in H.
  rewrite H. cbn [group Nat.eqb].
  apply (lang_within Chr.not_lf (Plus lazy Chr.not_lf)); [simpl; auto|exact L].
Qed.

Lemma search_first (r : regex) :
  forall s pv m, search_l r pv s = Some m ->
  exists pv' s' x, first r pv' s' = Some x /\ m = found_at s' x.
Proof.
  induction s as [|c s IH]; intros pv m H; cbn [search_l] in H.
  - destruct (first r pv []) as [x|] eqn:F; [|discriminate].
    injection H as <-. exists pv, [], x. auto.
  - destruct (first r pv (c :: s)) as [x|] eqn:F.
    + injection H as <-. exists pv, (c :: s), x. auto.
    + exact (IH _ _ H).
Qed.

Lemma no_lf_infix (l : list ascii) :
  Forall (holds Chr.not_lf) l -> Py.is_infix [ascii_of_nat 10] l = false.
Proof.
  induction 1 as [|c l Hc _ IH]; [reflexivity|].
  cbn [Py.is_infix Py.is_prefix]. rewrite IH.
  replace (Ascii.eqb (ascii_of_nat 10) c) with false; [reflexivity|].
  symmetry. apply Ascii.eqb_neq. intros <-. discriminate Hc.
Qed.

Lemma where_clause_one_line (stmt : string) :
  Py.contains (where_clause stmt) (String (ascii_of_nat 10) "") = false.
Proof.
  unfold where_clause, search.
  destruct (search_l where_pattern None (Py.chars stmt)) as [m|] eqn:S; [|reflexivity].
  apply search_first in S. destruct S as (pv & s & x & F & ->).
  unfold Py.contains. rewrite chars_app.
  change (Py.chars "WHERE ") with ("W" :: "H" :: "E" :: "R" :: "E" :: " " :: nil)%char%list.
  apply no_lf_infix. apply Forall_app. split; [repeat constructor|].
  unfold grp, found_at. cbn [groups].
  apply strip_keeps_forall. exact (where_group _ _ F).
Qed.



End LookupFacts.

Import LookupFacts.



(** X19: looking a table up in [tables_to_replace]: a table is in it
    exactly when it is the main table or a joined table of the statement
    (in upper case), and then with the entry that [TABLE_MAP] has for
    it, if any. *)
Theorem X19_tables_to_replace_lookup (stmt main_table_upper k : string) :
  get (tables_to_replace stmt main_table_upper) k =
  if (String.eqb k main_table_upper
      || existsb (fun jm => String.eqb k (Py.upper (grp 1 jm))) (findall join_pattern stmt))%bool
  then get TABLE_MAP k else None.
Proof. exact (tables_to_replace_get stmt main_table_upper k). Qed.

(** X20: the WHERE segment that the single-row rule takes over into the
    rebuilt statement (lines 137-138) never holds a line feed: it is
    empty or one line. *)
Theorem X20_where_clause_is_one_line (stmt : string) :
  Py.contains (where_clause stmt) (String (ascii_of_nat 10) "") = false.
Proof. exact (where_clause_one_line stmt). Qed.

(* ------------------------------------------------------------------ *)
(** ** Further facts: where a pattern matches in a text *)

Module TextFacts.

Import Re ReFacts PyFacts App AppFacts Props ScanFacts WordFacts StatementFacts FieldFacts.
Local Open Scope list_scope.












(** *** The words of a text *)





(** *** Pieces of a text *)





End TextFacts.

(* ------------------------------------------------------------------ *)
(** ** Further facts: the [ORDER BY] clause and [FOR ALL ENTRIES] *)

Module OrderFacts.

Import Re ReFacts PyFacts App AppFacts Props ScanFacts WordFacts StatementFacts FieldFacts
       DeletionFacts TextFacts Rules.
Local Open Scope list_scope.











End OrderFacts.

(* ------------------------------------------------------------------ *)
(** ** Further facts: a statement on which no rule fires *)

Module SettledFacts.

Import Re ReFacts PyFacts App AppFacts Props ScanFacts WordFacts StatementFacts FieldFacts
       FieldListFacts DeletionFacts TextFacts OrderFacts Rules.
Local Open Scope list_scope.















End SettledFacts.

(* ------------------------------------------------------------------ *)
(** ** Further facts: the wildcard substitution *)

Module WildcardFacts.

Import Re ReFacts PyFacts App AppFacts Props ScanFacts WordFacts StatementFacts FieldFacts
       TextFacts Rules.
Local Open Scope list_scope.





End WildcardFacts.

(* ------------------------------------------------------------------ *)
(** ** The properties of the specification, continued *)

Import TextFacts OrderFacts SettledFacts WildcardFacts.







